(** * git-diff: the change-list parser and the Diff model

    A shallow embedding of [src/Diff.ts] (and of the sibling revision of the
    same module that carries [Diff.filter]) together with the properties of
    the parser, of the Diff query surface and of the error classifier.

    JavaScript strings are sequences of UTF-16 code units, [Map] objects
    live in a heap and are reached through references, and a function
    either completes normally or throws. *)

From Stdlib Require Import NArith String Ascii List Bool Lia.
From stdpp Require Import base option list strings gmap.

Local Open Scope list_scope.

(* ===================================================================== *)
(** ** JavaScript strings *)
(* ===================================================================== *)

Module JsString.

Local Open Scope N_scope.

(** A UTF-16 code unit. *)
Abbreviation char := N.

(** A JavaScript string value. *)
Abbreviation str := (list char).

(** String literals of this file, written as Rocq strings. *)
Fixpoint lit (s : string) : str :=
  match s with
  | EmptyString => []
  | String a s' => N_of_ascii a :: lit s'
  end.

Definition LF : char := 10.
Definition CR : char := 13.
Definition TAB : char := 9.
Definition SPACE : char := 32.

Definition in_range (lo hi c : char) : bool := (lo <=? c) && (c <=? hi).

(** [\w]: ASCII letters, digits and underscore. [[^\W]] is the same class. *)
Definition is_word (c : char) : bool :=
  in_range 48 57 c || in_range 65 90 c || in_range 97 122 c || (c =? 95).

(** [\W] *)
Definition is_non_word (c : char) : bool := negb (is_word c).

(** ECMAScript LineTerminator: LF, CR, U+2028, U+2029. *)
Definition is_line_terminator (c : char) : bool :=
  (c =? 10) || (c =? 13) || (c =? 8232) || (c =? 8233).

(** [.] without the [s] flag: any code unit but a line terminator. *)
Definition is_dot (c : char) : bool := negb (is_line_terminator c).

(** ECMAScript WhiteSpace and LineTerminator, the code units that
    [String.prototype.trim] strips. *)
Definition is_white_space (c : char) : bool :=
  (c =? 9) || (c =? 11) || (c =? 12) || (c =? 32) || (c =? 160)
  || (c =? 5760) || in_range 8192 8202 c || (c =? 8239) || (c =? 8287)
  || (c =? 12288) || (c =? 65279) || is_line_terminator c.

Fixpoint take_while (p : char → bool) (s : str) : str :=
  match s with
  | c :: s' => if p c then c :: take_while p s' else []
  | [] => []
  end.

Fixpoint drop_while (p : char → bool) (s : str) : str :=
  match s with
  | c :: s' => if p c then drop_while p s' else s
  | [] => []
  end.

(** [s.trim()] *)
Definition trim_start (s : str) : str := drop_while is_white_space s.
Definition trim_end (s : str) : str := rev (drop_while is_white_space (rev s)).
Definition trim (s : str) : str := trim_end (trim_start s).

(** [s.split(sep)] for a separator of one code unit: always at least one
    piece, and [k] separators give [k + 1] pieces. *)
Fixpoint split (sep : char) (s : str) : list str :=
  match s with
  | [] => [[]]
  | c :: s' =>
      if c =? sep then [] :: split sep s'
      else match split sep s' with
           | piece :: pieces => (c :: piece) :: pieces
           | [] => [[c]]
           end
  end.

(** Truthiness of a string: the empty string is falsy. *)
Definition truthy (s : str) : bool :=
  match s with [] => false | _ :: _ => true end.

Fixpoint starts_with (p s : str) : bool :=
  match p, s with
  | [], _ => true
  | a :: p', b :: s' => (a =? b) && starts_with p' s'
  | _ :: _, [] => false
  end.

End JsString.
Import JsString.

(* ===================================================================== *)
(** ** Regular expressions

    The two patterns of the module are sequences of literals and of
    greedy character-class repetitions, some of them captured. The matcher
    backtracks the way the ECMAScript one does: a repetition first takes
    the longest run and gives characters back one at a time, down to its
    minimum, until the rest of the pattern matches. *)
(* ===================================================================== *)

Module Regex.

Inductive piece :=
| Lit (s : str)                       (* literal characters *)
| Rep (cls : char → bool) (min : nat) (* greedy cls{min,} *)
| Cap (cls : char → bool) (min : nat) (* the same, captured *)
| Eol.                                (* $ *)

Record regex := { anchored : bool (* leading ^ *); pieces : list piece }.

(** Tries [k n], [k (n-1)], ..., [k lo]. *)
Fixpoint try_down {R} (k : nat → option R) (lo n : nat) : option R :=
  match k n with
  | Some r => Some r
  | None =>
      match n with
      | O => None
      | S n' => if (lo <=? n')%nat then try_down k lo n' else None
      end
  end.

Definition greedy {R} (cls : char → bool) (min : nat) (s : str)
    (k : nat → option R) : option R :=
  let longest := length (take_while cls s) in
  if (min <=? longest)%nat then try_down k min longest else None.

(** Matches the pieces at the start of [s]; [caps] are the groups captured
    so far. *)
Fixpoint match_here (ps : list piece) (s : str) (caps : list str)
    : option (list str) :=
  match ps with
  | [] => Some caps
  | Lit l :: ps' =>
      if starts_with l s then match_here ps' (drop (length l) s) caps
      else None
  | Rep cls min :: ps' =>
      greedy cls min s (λ i, match_here ps' (drop i s) caps)
  | Cap cls min :: ps' =>
      greedy cls min s (λ i, match_here ps' (drop i s) (caps ++ [take i s]))
  | Eol :: ps' =>
      match s with [] => match_here ps' s caps | _ :: _ => None end
  end.

(** Leftmost match at or after the start of [s]. *)
Fixpoint search (ps : list piece) (s : str) : option (list str) :=
  match match_here ps s [] with
  | Some caps => Some caps
  | None => match s with [] => None | _ :: s' => search ps s' end
  end.

(** [re.exec(s)] / [s.match(re)] for a pattern without the [g] flag: the
    captured groups ([match[1]], [match[2]], ...) or [None] for [null]. *)
Definition exec (re : regex) (s : str) : option (list str) :=
  if anchored re then match_here (pieces re) s [] else search (pieces re) s.

End Regex.
Import Regex.

(** The pattern of [parse], token by token:
    ^  ( [^\W]* )  \W+  ( .* )  $ *)
Definition line_re : regex :=
  {| anchored := true;
     pieces := [Cap is_word 0; Rep is_non_word 1; Cap is_dot 0; Eol] |}.

(** The pattern of [throwGitDiffError], token by token:
    fatal: bad revision '  ( .* )  ' *)
Definition bad_revision_re : regex :=
  {| anchored := false;
     pieces := [Lit (lit "fatal: bad revision '"); Cap is_dot 0; Lit (lit "'")] |}.

(* ===================================================================== *)
(** ** Values, heap and completions *)
(* ===================================================================== *)

Abbreviation Path := str.
Abbreviation Status := str.

Module Status.
Definition Added : Status := lit "A".
Definition Changed : Status := lit "C".
Definition Deleted : Status := lit "D".
Definition Modified : Status := lit "M".
Definition Renamed : Status := lit "R".
Definition Unknown : Status := lit "X".
End Status.

(** A thrown object: whether it is an [instanceof Error], and its
    properties by name. *)
Record JsError := { instanceof_Error : bool; props : gmap string str }.

Definition get_prop (k : string) (e : JsError) : option str := props e !! k.

Definition set_prop (k : string) (v : str) (e : JsError) : JsError :=
  {| instanceof_Error := instanceof_Error e; props := <[k := v]> (props e) |}.

(** [new Error(message)] *)
Definition new_Error (message : str) : JsError :=
  {| instanceof_Error := true; props := {[ "message"%string := message ]} |}.

(** A [Map<Path, Status>]: its entries in insertion order. *)
Abbreviation JsMap := (list (Path * Status)).

(** [map.set(k, v)] on the entries: a key that is present keeps its place
    and takes the new value, a new key goes to the end. *)
Fixpoint entries_set (k : Path) (v : Status) (m : JsMap) : JsMap :=
  match m with
  | [] => [(k, v)]
  | (k', v') :: m' =>
      if decide (k' = k) then (k', v) :: m' else (k', v') :: entries_set k v m'
  end.

(** [map.delete(k)] on the entries. *)
Fixpoint entries_delete (k : Path) (m : JsMap) : JsMap :=
  match m with
  | [] => []
  | (k', v') :: m' =>
      if decide (k' = k) then m' else (k', v') :: entries_delete k m'
  end.

(** The entries of [new Map(iterable)]: one [set] per pair, in order. *)
Definition entries_of_iterable (it : list (Path * Status)) : JsMap :=
  foldl (λ m kv, entries_set kv.1 kv.2 m) [] it.

(** A reference to a [Map] object, and the heap of these objects. *)
Abbreviation ref := nat.
Abbreviation Store := (list JsMap).

Inductive Completion (A : Type) :=
| Normal (a : A)
| Throw (e : JsError).
Arguments Normal {A} a.
Arguments Throw {A} e.

(** A computation that reads and writes the heap and may throw. *)
Definition JS (A : Type) : Type := Store → Completion A * Store.

Definition ret {A} (a : A) : JS A := λ st, (Normal a, st).

Definition bind {A B} (m : JS A) (k : A → JS B) : JS B :=
  λ st, match m st with
        | (Normal a, st') => k a st'
        | (Throw e, st') => (Throw e, st')
        end.

Definition throw {A} (e : JsError) : JS A := λ st, (Throw e, st).

(** [try { body } catch (error) { handler }] *)
Definition try_catch {A} (body : JS A) (handler : JsError → JS A) : JS A :=
  λ st, match body st with
        | (Normal a, st') => (Normal a, st')
        | (Throw e, st') => handler e st'
        end.

(** A read of the heap. *)
Definition read {A} (f : Store → A) : JS A := λ st, (Normal (f st), st).

Declare Scope js_scope.
Delimit Scope js_scope with js.
Notation "'let*' x ':=' m 'in' k" := (bind m (λ x, k))
  (at level 10, x name, m at level 100, k at level 200) : js_scope.
Notation "m ';;' k" := (bind m (λ _, k))
  (at level 100, k at level 200, right associativity) : js_scope.
Local Open Scope js_scope.

(** *** [Map] objects in the heap *)

(** [new Map(iterable)]; [new Map()] is [Map_new []]. *)
Definition Map_new (it : list (Path * Status)) : JS ref :=
  λ st, (Normal (length st), st ++ [entries_of_iterable it]).

Definition Map_set (m : ref) (k : Path) (v : Status) : JS unit :=
  λ st, (Normal (), alter (entries_set k v) m st).

Definition Map_delete (m : ref) (k : Path) : JS unit :=
  λ st, (Normal (), alter (entries_delete k) m st).

Definition Map_clear (m : ref) : JS unit :=
  λ st, (Normal (), alter (λ _, []) m st).

(** [map.entries()], [map.keys()], [map.values()], read to the end, and
    [map.size]. *)
Definition Map_entries (m : ref) (st : Store) : list (Path * Status) :=
  default [] (st !! m).
Definition Map_keys (m : ref) (st : Store) : list Path := (Map_entries m st).*1.
Definition Map_values (m : ref) (st : Store) : list Status := (Map_entries m st).*2.
Definition Map_size (m : ref) (st : Store) : nat := length (Map_entries m st).

(* ===================================================================== *)
(** ** The Diff class *)
(* ===================================================================== *)

(** An instance: its private field [#diff]. *)
Record Diff := { diff : ref }.

(** The argument of the constructor: a [Map], or an iterable of pairs. *)
Inductive DiffSource :=
| OfMap (m : ref)
| OfIterable (it : list (Path * Status)).

(** [new Diff(diff)]; without an argument the default is [new Map()]. *)
Definition Diff_new (arg : option DiffSource) : JS Diff :=
  match arg with
  | Some (OfMap m) => ret {| diff := m |}
  | Some (OfIterable it) => let* m := Map_new it in ret {| diff := m |}
  | None => let* m := Map_new [] in ret {| diff := m |}
  end.

Definition Diff_size (d : Diff) (st : Store) : nat := Map_size (diff d) st.
Definition Diff_entries (d : Diff) (st : Store) : list (Path * Status) :=
  Map_entries (diff d) st.
Definition Diff_paths (d : Diff) (st : Store) : list Path := Map_keys (diff d) st.
Definition Diff_statuses (d : Diff) (st : Store) : list Status :=
  Map_values (diff d) st.

(** A value that is one item, an array of items, or [undefined]. *)
Inductive OneOrMany (T : Type) :=
| Undefined
| One (value : T)
| Many (values : list T).
Arguments Undefined {T}.
Arguments One {T} value.
Arguments Many {T} values.

(** [toArray]: an array stays, a truthy value is wrapped, anything else
    gives the empty array. *)
Definition toArray (value : OneOrMany str) : list str :=
  match value with
  | Many values => values
  | One v => if truthy v then [v] else []
  | Undefined => []
  end.

Record DiffFilterOptions :=
  { paths : option (list Path); statuses : option (list Status) }.

(** The result of [match]: the captured [Map] and the compiled matcher; the
    six getters read the [Map] when they are called. *)
Record Match := { match_diff : ref; match_matcher : Path → bool }.

Section Glob.

(** The glob collaborator on one pattern: does the path match it. *)
Variable isMatch : str → Path → bool.

(** [glob(patterns)]: the matcher of an array of patterns accepts a path
    that one of the patterns accepts. *)
Definition glob (patterns : list str) : Path → bool :=
  λ path, existsb (λ pattern, isMatch pattern path) patterns.

Definition Diff_match (d : Diff) (pathOrPaths : OneOrMany Path) : Match :=
  {| match_diff := diff d; match_matcher := glob (toArray pathOrPaths) |}.

Definition some_entry (kind : Status) (m : Match) (st : Store) : bool :=
  existsb (λ '(path, status),
             bool_decide (status = kind) && match_matcher m path)
          (Map_entries (match_diff m) st).

Definition Match_added := some_entry Status.Added.
Definition Match_changed := some_entry Status.Changed.
Definition Match_deleted := some_entry Status.Deleted.
Definition Match_modified := some_entry Status.Modified.
Definition Match_renamed := some_entry Status.Renamed.
Definition Match_unknown := some_entry Status.Unknown.

(** The callback of [filter]. *)
Definition filter_keeps (o : DiffFilterOptions) (matcher : Path → bool)
    (entry : Path * Status) : bool :=
  let '(path, status) := entry in
  if match paths o with
     | Some _ => negb (matcher path)
     | None => false
     end then false
  else if match statuses o with
          | Some sts => negb (bool_decide (status ∈ sts))
          | None => false
          end then false
  else true.

Definition Diff_filter (d : Diff) (o : DiffFilterOptions) : JS Diff :=
  let matcher := glob (default [] (paths o)) in
  let* entries := read (Diff_entries d) in
  Diff_new (Some (OfIterable (List.filter (filter_keeps o matcher) entries))).


End Glob.

(* ===================================================================== *)
(** ** Parsing and running the command *)
(* ===================================================================== *)

(** The body of the loop of [parse] after the blank-line test: the match,
    the two trims and the truthiness test; [None] is the way to [throw]. *)
Definition parse_line (line : str) : option (Path * Status) :=
  match exec line_re line with
  | Some groups =>
      match trim <$> groups !! 0%nat, trim <$> groups !! 1%nat with
      | Some status, Some path =>
          if truthy status && truthy path then Some (path, status) else None
      | _, _ => None
      end
  | None => None
  end.

Definition invalid_line (line : str) : JsError :=
  new_Error (lit "Invalid line in diff output: " ++ line).

Fixpoint parse_loop (map : ref) (lines : list str) : JS unit :=
  match lines with
  | [] => ret ()
  | line :: rest =>
      if negb (truthy line) then parse_loop map rest
      else match parse_line line with
           | Some (path, status) =>
               Map_set map path status ;; parse_loop map rest
           | None => throw (invalid_line line)
           end
  end.

Definition parse (stdout : str) : JS Diff :=
  let* map := Map_new [] in
  parse_loop map (split LF stdout) ;;
  Diff_new (Some (OfMap map)).

Definition errorName : str := lit "GitDiffError".
Definition badRevisionErrorCode : str := lit "BAD_REVISION".

Definition isErrorWithStderr (error : JsError) : bool :=
  instanceof_Error error
  && match get_prop "stderr" error with Some s => truthy s | None => false end.

Definition throwGitDiffError (error : JsError) : JS unit :=
  if isErrorWithStderr error then
    match exec bad_revision_re (default [] (get_prop "stderr" error)) with
    | Some groups =>
        throw (set_prop "code" badRevisionErrorCode
                 (set_prop "name" errorName
                    (new_Error (lit "The ref does not exist: "
                                ++ default (lit "undefined") (groups !! 0%nat)))))
    | None => ret ()
    end
  else ret ().

Record DiffOptions :=
  { cwd : option str; base : option str; head : option str }.

Definition if_truthy (o : option str) : list str :=
  match o with
  | Some s => if truthy s then [s] else []
  | None => []
  end.

(** [diffArgs]: the command, its arguments and the working directory. *)
Definition diffArgs (options : DiffOptions) : str * list str * option str :=
  (lit "git",
   [lit "diff"; lit "--name-status"]
     ++ if_truthy (base options) ++ if_truthy (head options) ++ [lit "--"],
   cwd options).

(** What running a command gives: its output, or the error it fails with. *)
Inductive ExecResult :=
| Stdout (stdout : str)
| Failure (error : JsError).

Section Exec.

(** The external command runner. *)
Variable execFile : str * list str * option str → ExecResult.

Definition execSync (args : str * list str * option str) : JS str :=
  match execFile args with
  | Stdout stdout => ret stdout
  | Failure error => throw error
  end.

(** [diffSync]; [diffAsync] has the same body around [await]. *)
Definition diffSync (options : DiffOptions) : JS Diff :=
  try_catch
    (let* stdout := execSync (diffArgs options) in parse stdout)
    (λ error, throwGitDiffError error ;; throw error).

Definition diffAsync (options : DiffOptions) : JS Diff :=
  try_catch
    (let* stdout := execSync (diffArgs options) in parse stdout)
    (λ error, throwGitDiffError error ;; throw error).

End Exec.

(* ===================================================================== *)
(** ** The shorthands of the revision with [filter], and the first commit *)
(* ===================================================================== *)

Section Shorthands.

Variable isMatch : str → Path → bool.













End Shorthands.

Module FirstCommit.

Record Options := { cwd : option str; ref : option str }.

(** [options.ref || 'HEAD'] *)
Definition ref_or_HEAD (options : Options) : str :=
  match ref options with
  | Some r => if truthy r then r else lit "HEAD"
  | None => lit "HEAD"
  end.

(** [firstCommitArgs] *)
Definition firstCommitArgs (options : Options) : str * list str * option str :=
  (lit "git",
   [lit "rev-list"; lit "--max-parents=0"; ref_or_HEAD options],
   cwd options).

End FirstCommit.

Section FirstCommitExec.

Variable execFile : str * list str * option str → ExecResult.

(** [firstCommitSync]; [firstCommitAsync] has the same body around
    [await]. *)
Definition firstCommitSync (options : FirstCommit.Options) : JS str :=
  let* stdout := execSync execFile (FirstCommit.firstCommitArgs options) in
  ret (trim stdout).

Definition firstCommitAsync (options : FirstCommit.Options) : JS str :=
  let* stdout := execSync execFile (FirstCommit.firstCommitArgs options) in
  ret (trim stdout).

End FirstCommitExec.

(* ===================================================================== *)
(** ** Vocabulary of the properties *)
(* ===================================================================== *)

(** The groups of the line pattern, read off the line directly: the
    leading run of word characters, then the longest run of other
    characters, which must not be empty, then the rest, which must hold
    no line terminator. *)
Definition line_groups (line : str) : option (str * str) :=
  let rest := drop_while is_word line in
  let tail := drop_while is_non_word rest in
  if truthy (take_while is_non_word rest) && forallb is_dot tail
  then Some (take_while is_word line, tail)
  else None.

(** [map.get(k)] on the entries. *)
Fixpoint entries_get (k : Path) (m : JsMap) : option Status :=
  match m with
  | [] => None
  | (k', v) :: m' => if decide (k' = k) then Some v else entries_get k m'
  end.

(** The keys of a sequence in the order in which they first occur. *)
Fixpoint first_seen (ks : list Path) : list Path :=
  match ks with
  | [] => []
  | k :: ks' => k :: filter (λ x, x ≠ k) (first_seen ks')
  end.

(** The value written last for a key in a sequence of pairs. *)
Fixpoint last_write (k : Path) (it : list (Path * Status)) : option Status :=
  match it with
  | [] => None
  | (k', v) :: it' =>
      match last_write k it' with
      | Some s => Some s
      | None => if decide (k' = k) then Some v else None
      end
  end.

Definition set_pair (m : JsMap) (kv : Path * Status) : JsMap :=
  entries_set kv.1 kv.2 m.

(** The lines that [parse] does not skip, and what they record. *)
Definition non_blank_lines (text : str) : list str :=
  List.filter truthy (split LF text).

Definition records_of (lines : list str) : list (Path * Status) :=
  omap parse_line (List.filter truthy lines).

Definition records (text : str) : list (Path * Status) :=
  records_of (split LF text).

(** A line that [parse] skips or records. *)
Definition line_ok (line : str) : Prop :=
  line = [] ∨ is_Some (parse_line line).

(** A line that makes [parse] throw. *)
Definition malformed (line : str) : Prop :=
  line ≠ [] ∧ parse_line line = None.

(** The loop on the entries of the Map alone: the entries when it ends, and
    the line it threw on, if any. *)
Fixpoint scan (lines : list str) (m : JsMap) : JsMap * option str :=
  match lines with
  | [] => (m, None)
  | line :: rest =>
      if negb (truthy line) then scan rest m
      else match parse_line line with
           | Some (path, status) => scan rest (entries_set path status m)
           | None => (m, Some line)
           end
  end.

Definition completion_of_scan (bad : option str) : Completion unit :=
  match bad with
  | None => Normal ()
  | Some line => Throw (invalid_line line)
  end.

(** Every Map of the heap has pairwise distinct keys. *)
Definition Store_wf (st : Store) : Prop := Forall (λ m : JsMap, NoDup m.*1) st.



(** The matcher of the examples: a pattern matches the path equal to it. *)
Definition exact_match (pattern : str) (path : Path) : bool :=
  bool_decide (pattern = path).

Definition sample_entries : list (Path * Status) :=
  [(lit "package.json", Status.Unknown); (lit "src/main.ts", Status.Added);
   (lit "src/index.ts", Status.Deleted)].

(** What code outside the class can do to the heap: make a Map of its own,
    or change a Map that it holds a reference to. *)
Inductive ExternalStep :=
| ExtNew (it : list (Path * Status))
| ExtSet (m : ref) (k : Path) (v : Status)
| ExtDelete (m : ref) (k : Path)
| ExtClear (m : ref).

(** Runs the steps from the references [held]; [None] when a step uses a
    reference that the outside code does not hold. *)
Fixpoint external_run (steps : list ExternalStep) (held : list ref)
    (st : Store) : option Store :=
  match steps with
  | [] => Some st
  | ExtNew it :: rest =>
      external_run rest (length st :: held) (Map_new it st).2
  | ExtSet m k v :: rest =>
      if decide (m ∈ held) then external_run rest held (Map_set m k v st).2
      else None
  | ExtDelete m k :: rest =>
      if decide (m ∈ held) then external_run rest held (Map_delete m k st).2
      else None
  | ExtClear m :: rest =>
      if decide (m ∈ held) then external_run rest held (Map_clear m st).2
      else None
  end.

(** The error that [throwGitDiffError] makes for a reference. *)
Definition git_diff_error (reference : str) : JsError :=
  set_prop "code" badRevisionErrorCode
    (set_prop "name" errorName
       (new_Error (lit "The ref does not exist: " ++ reference))).

(** The diagnostic of a failure: the [stderr] of an Error that has one
    and whose [stderr] is not empty. *)
Definition diagnostic (error : JsError) : option str :=
  if isErrorWithStderr error then get_prop "stderr" error else None.

(** A command that fails the way [execFile] does: an Error with the
    diagnostic in [stderr]. *)
Definition failing_command (stderr : str)
    : str * list str * option str → ExecResult :=
  λ _, Failure (set_prop "stderr" stderr (new_Error (lit "Command failed"))).

Definition sample_options : DiffOptions :=
  {| cwd := None; base := Some (lit "nope"); head := Some (lit "HEAD") |}.

(** The shape of a record that [parse] writes: the status is a non-empty
    run of word characters; the path starts with a word character, holds
    no line terminator and does not end in whitespace. *)
Definition record_shape (entry : Path * Status) : Prop :=
  entry.2 ≠ [] ∧ forallb is_word entry.2 = true ∧
  (∃ c t, entry.1 = c :: t ∧ is_word c = true) ∧
  forallb is_dot entry.1 = true ∧
  (∀ t c, entry.1 = t ++ [c] → is_white_space c = false).

(** A selector of [match] that names no path: [undefined], the empty
    string or the empty array. *)
Definition empty_selector (selector : OneOrMany Path) : Prop :=
  selector = Undefined ∨ selector = One [] ∨ selector = Many [].



(** A command that succeeds with the given output. *)
Definition succeeding_command (stdout : str)
    : str * list str * option str → ExecResult :=
  λ _, Stdout stdout.

Definition sample_first_commit_options : FirstCommit.Options :=
  {| FirstCommit.cwd := None; FirstCommit.ref := None |}.


Ltac char_class :=
  unfold is_non_word, is_dot, is_white_space, is_line_terminator, is_word,
    in_range, LF, CR, TAB, SPACE in *;
  repeat match goal with
         | H : _ |- _ =>
             progress rewrite ?negb_true_iff, ?negb_false_iff, ?orb_true_iff,
               ?orb_false_iff, ?andb_true_iff, ?andb_false_iff, ?N.eqb_eq,
               ?N.eqb_neq, ?N.leb_le, ?N.leb_gt in H
         end;
  rewrite ?negb_true_iff, ?negb_false_iff, ?orb_true_iff, ?orb_false_iff,
    ?andb_true_iff, ?andb_false_iff, ?N.eqb_eq, ?N.eqb_neq, ?N.leb_le,
    ?N.leb_gt;
  lia.

(* ===================================================================== *)
(** ** Character classes and runs *)
(* ===================================================================== *)

Lemma word_not_white_space c : is_word c = true → is_white_space c = false.
Proof. intros H. char_class. Qed.

Lemma word_is_dot c : is_word c = true → is_dot c = true.
Proof. intros H. char_class. Qed.

Lemma word_not_non_word c : is_word c = true → is_non_word c = false.
Proof. intros H. unfold is_non_word. by rewrite H. Qed.

Lemma white_space_non_word c : is_white_space c = true → is_non_word c = true.
Proof. intros H. char_class. Qed.

Lemma dot_not_LF c : is_dot c = true → (c =? LF)%N = false.
Proof. intros H. char_class. Qed.

Section Runs.

Variable p : char → bool.

Lemma take_drop_while s : take_while p s ++ drop_while p s = s.
Proof.
  induction s as [|c s IH]; simpl; [done|]. destruct (p c); simpl; congruence.
Qed.

Lemma take_while_all s : forallb p s = true → take_while p s = s.
Proof.
  induction s as [|c s IH]; simpl; [done|].
  intros [-> H]%andb_true_iff. by rewrite IH.
Qed.

Lemma drop_while_all s : forallb p s = true → drop_while p s = [].
Proof.
  induction s as [|c s IH]; simpl; [done|].
  intros [-> H]%andb_true_iff. by apply IH.
Qed.

Lemma take_while_forallb s : forallb p (take_while p s) = true.
Proof.
  induction s as [|c s IH]; simpl; [done|].
  destruct (p c) eqn:E; simpl; [by rewrite E|done].
Qed.

(** A run followed by a character outside the class. *)
Lemma take_while_app_stop run c s :
  forallb p run = true → p c = false → take_while p (run ++ c :: s) = run.
Proof.
  induction run as [|a run IH]; simpl; intros Hr Hc; [by rewrite Hc|].
  apply andb_true_iff in Hr as [-> Hr]. by rewrite IH.
Qed.

Lemma drop_while_app_stop run c s :
  forallb p run = true → p c = false → drop_while p (run ++ c :: s) = c :: s.
Proof.
  induction run as [|a run IH]; simpl; intros Hr Hc; [by rewrite Hc|].
  apply andb_true_iff in Hr as [-> Hr]. by rewrite IH.
Qed.

Lemma take_len_take_while s : take (length (take_while p s)) s = take_while p s.
Proof.
  induction s as [|c s IH]; simpl; [done|].
  destruct (p c); simpl; [by rewrite IH|done].
Qed.

Lemma drop_len_take_while s : drop (length (take_while p s)) s = drop_while p s.
Proof.
  induction s as [|c s IH]; simpl; [done|].
  destruct (p c); simpl; [by rewrite IH|done].
Qed.

(** Inside the longest run every suffix starts in the class. *)
Lemma drop_inside_run s i :
  (i < length (take_while p s))%nat → ∃ c r, drop i s = c :: r ∧ p c = true.
Proof.
  revert i. induction s as [|c s IH]; simpl; intros i Hi; [lia|].
  destruct (p c) eqn:E; simpl in Hi; [|lia].
  destruct i as [|i]; simpl; [eauto|]. apply IH. lia.
Qed.

(** When the class does not cover [s], the longest run is too short to
    reach the end of [s]. *)
Lemma run_stops_short s i :
  forallb p s = false → (i ≤ length (take_while p s))%nat → drop i s ≠ [].
Proof.
  revert i. induction s as [|c s IH]; simpl; intros i Hs Hi; [done|].
  destruct (p c) eqn:E; simpl in *.
  - destruct i as [|i]; simpl; [done|]. apply IH; [done|lia].
  - assert (i = 0%nat) as -> by lia. done.
Qed.

End Runs.

Lemma forallb_drop {A} (p : A → bool) (s : list A) i :
  forallb p s = true → forallb p (drop i s) = true.
Proof.
  revert i. induction s as [|c s IH]; intros [|i]; simpl; try done.
  intros [_ H]%andb_true_iff. by apply IH.
Qed.

Lemma forallb_app_false_r {A} (p : A → bool) (s t : list A) :
  forallb p t = false → forallb p (s ++ t) = false.
Proof. intros H. rewrite forallb_app, H. apply andb_false_r. Qed.

(** [trim] leaves a run of word characters as it is. *)
Lemma drop_while_ws_word c s :
  is_word c = true → drop_while is_white_space (c :: s) = c :: s.
Proof. intros H. simpl. by rewrite word_not_white_space. Qed.

Lemma trim_word_run s : forallb is_word s = true → trim s = s.
Proof.
  intros H. unfold trim, trim_end, trim_start.
  assert (∀ t, forallb is_word t = true → drop_while is_white_space t = t) as Hd.
  { intros [|c t]; simpl; [done|]. intros [Hc _]%andb_true_iff.
    by rewrite word_not_white_space. }
  rewrite (Hd s H), Hd; [apply rev_involutive|].
  rewrite forallb_forall in *. intros c Hc. apply H. by apply in_rev.
Qed.

Lemma trim_white_space s : forallb is_white_space s = true → trim s = [].
Proof.
  intros H. unfold trim, trim_end, trim_start.
  by rewrite (drop_while_all _ s H).
Qed.

(** A string that starts with a word character keeps it through [trim]. *)
Lemma trim_start_word c s : is_word c = true → ∃ t, trim (c :: s) = c :: t.
Proof.
  intros H. unfold trim, trim_start. rewrite drop_while_ws_word by done.
  unfold trim_end. simpl rev.
  assert (∀ u, ∃ t, rev (drop_while is_white_space (u ++ [c])) = c :: t) as Hu.
  { induction u as [|a u IH]; simpl.
    - rewrite word_not_white_space by done. by exists [].
    - destruct (is_white_space a); [done|].
      exists (rev u ++ [a]). simpl. by rewrite rev_app_distr. }
  apply Hu.
Qed.

(* ===================================================================== *)
(** ** What the two patterns match *)
(* ===================================================================== *)

Lemma try_down_hit {R} (k : nat → option R) lo n r :
  k n = Some r → try_down k lo n = Some r.
Proof. intros H. destruct n; simpl; by rewrite H. Qed.

Lemma try_down_none {R} (k : nat → option R) lo n :
  (∀ i, (i ≤ n)%nat → k i = None) → try_down k lo n = None.
Proof.
  induction n as [|n IH]; intros H; simpl; rewrite H by lia; [done|].
  destruct (lo <=? n)%nat; [|done]. apply IH. intros i Hi. apply H. lia.
Qed.

Lemma greedy_hit {R} cls min s (k : nat → option R) r :
  (min ≤ length (take_while cls s))%nat →
  k (length (take_while cls s)) = Some r →
  greedy cls min s k = Some r.
Proof.
  intros Hmin Hk. unfold greedy.
  destruct (Nat.leb_spec min (length (take_while cls s))); [|lia].
  by apply try_down_hit.
Qed.

Lemma greedy_none {R} cls min s (k : nat → option R) :
  (∀ i, (i ≤ length (take_while cls s))%nat → k i = None) →
  greedy cls min s k = None.
Proof.
  intros H. unfold greedy. destruct (_ <=? _)%nat; [|done].
  by apply try_down_none.
Qed.

Lemma greedy_short {R} cls min s (k : nat → option R) :
  (length (take_while cls s) < min)%nat → greedy cls min s k = None.
Proof.
  intros H. unfold greedy.
  destruct (Nat.leb_spec min (length (take_while cls s))); [lia|done].
Qed.

Lemma dots_to_end t caps :
  forallb is_dot t = true →
  match_here [Cap is_dot 0; Eol] t caps = Some (caps ++ [t]).
Proof.
  intros H. simpl. apply greedy_hit; [lia|].
  rewrite take_while_all by done. by rewrite drop_all, take_ge.
Qed.

Lemma dots_not_to_end t caps :
  forallb is_dot t = false → match_here [Cap is_dot 0; Eol] t caps = None.
Proof.
  intros H. simpl. apply greedy_none. intros i Hi.
  pose proof (run_stops_short is_dot t i H Hi). by destruct (drop i t).
Qed.

Lemma exec_line_re line :
  exec line_re line = (λ g, [g.1; g.2]) <$> line_groups line.
Proof.
  unfold exec, line_re, line_groups. cbn [anchored pieces match_here].
  set (k := λ i, greedy _ _ _ _).
  set (rest := drop_while is_word line).
  set (sep := take_while is_non_word rest).
  set (tail := drop_while is_non_word rest).
  assert (Hbefore : ∀ i, (i < length (take_while is_word line))%nat → k i = None).
  { intros i Hi. unfold k. apply greedy_short.
    destruct (drop_inside_run is_word line i Hi) as (c & r & -> & Hc).
    simpl. rewrite word_not_non_word by done. simpl. lia. }
  assert (Hat : k (length (take_while is_word line))
                = if truthy sep && forallb is_dot tail
                  then Some [take_while is_word line; tail] else None).
  { unfold k. rewrite drop_len_take_while, take_len_take_while. fold rest.
    destruct sep as [|c sep'] eqn:Esep; simpl truthy.
    - apply greedy_short. fold sep. rewrite Esep. simpl. lia.
    - destruct (forallb is_dot tail) eqn:Etail; simpl.
      + apply greedy_hit; [fold sep; rewrite Esep; simpl; lia|].
        rewrite drop_len_take_while. fold tail.
        change (match_here [Cap is_dot 0; Eol] tail ([] ++ [take_while is_word line])
                = Some [take_while is_word line; tail]).
        by rewrite dots_to_end.
      + apply greedy_none. intros j Hj.
        change (match_here [Cap is_dot 0; Eol] (drop j rest)
                  ([] ++ [take_while is_word line]) = None).
        apply dots_not_to_end.
        rewrite <- (take_drop_while is_non_word rest). fold sep tail.
        fold sep in Hj. rewrite drop_app_le by done.
        by apply forallb_app_false_r. }
  destruct (truthy sep && forallb is_dot tail) eqn:E; simpl.
  - apply greedy_hit; [lia|done].
  - apply greedy_none. intros i Hi.
    destruct (decide (i = length (take_while is_word line))) as [->|Hne]; [done|].
    apply Hbefore. lia.
Qed.

(** [parse_line] without the matcher. *)
Lemma parse_line_groups line :
  parse_line line =
    match line_groups line with
    | Some (g1, g2) =>
        if truthy g1 && truthy (trim g2) then Some (trim g2, g1) else None
    | None => None
    end.
Proof.
  unfold parse_line. rewrite exec_line_re.
  destruct (line_groups line) as [[g1 g2]|] eqn:E; simpl; [|done].
  assert (trim g1 = g1) as ->; [|done].
  apply trim_word_run. unfold line_groups in E.
  destruct (_ && _); [|done]. injection E as <- _. apply take_while_forallb.
Qed.

(* ===================================================================== *)
(** ** Lines *)
(* ===================================================================== *)

Lemma split_no_sep sep s :
  forallb (λ c, negb (c =? sep)%N) s = true → split sep s = [s].
Proof.
  induction s as [|c s IH]; simpl; [done|].
  intros [Hc Hs]%andb_true_iff. apply negb_true_iff in Hc.
  by rewrite Hc, IH.
Qed.

Lemma dots_no_LF s :
  forallb is_dot s = true → forallb (λ c, negb (c =? LF)%N) s = true.
Proof.
  rewrite !forallb_forall. intros H c Hc. by rewrite dot_not_LF by auto.
Qed.

(* ===================================================================== *)
(** ** Entries of a Map *)
(* ===================================================================== *)

Lemma entries_set_keys k v m :
  (entries_set k v m).*1 = if decide (k ∈ m.*1) then m.*1 else m.*1 ++ [k].
Proof.
  induction m as [|[k' v'] m IH]; csimpl.
  - done.
  - destruct (decide (k' = k)) as [->|Hne]; csimpl.
    + destruct (decide (k ∈ k :: m.*1)) as [_|Hn]; [done|].
      exfalso. apply Hn, list_elem_of_here.
    + rewrite IH.
      destruct (decide (k ∈ m.*1)) as [Hin|Hin];
        destruct (decide (k ∈ k' :: m.*1)) as [Hin'|Hin']; try done.
      * exfalso. apply Hin'. by apply list_elem_of_further.
      * apply elem_of_cons in Hin' as [?|?]; congruence.
Qed.

Lemma entries_set_NoDup k v m : NoDup m.*1 → NoDup (entries_set k v m).*1.
Proof.
  intros H. rewrite entries_set_keys. destruct (decide _) as [|Hin]; [done|].
  apply NoDup_app. split_and!; [done| |apply NoDup_singleton].
  intros x Hx ->%list_elem_of_singleton. done.
Qed.

Lemma entries_delete_keys_subseteq k m x :
  x ∈ (entries_delete k m).*1 → x ∈ m.*1.
Proof.
  induction m as [|[a b] m IH]; csimpl; [done|].
  destruct (decide (a = k)); csimpl.
  - apply list_elem_of_further.
  - rewrite !elem_of_cons. intros [->|Hx]; [by left|right; by apply IH].
Qed.

Lemma entries_delete_NoDup k m : NoDup m.*1 → NoDup (entries_delete k m).*1.
Proof.
  induction m as [|[k' v'] m IH]; csimpl; [done|].
  intros [Hk Hm]%NoDup_cons. destruct (decide (k' = k)); [done|].
  csimpl. apply NoDup_cons. split; [|by apply IH].
  intros Hin. by apply Hk, (entries_delete_keys_subseteq k m).
Qed.

Lemma entries_get_set p k v m :
  entries_get p (entries_set k v m) =
    if decide (k = p) then Some v else entries_get p m.
Proof.
  induction m as [|[k' v'] m IH]; simpl.
  - done.
  - destruct (decide (k' = k)) as [->|Hne]; simpl.
    + by destruct (decide (k = p)).
    + rewrite IH. destruct (decide (k' = p)) as [->|]; [|done].
      by rewrite decide_False.
Qed.

Lemma entries_get_elem p s m :
  NoDup m.*1 → (p, s) ∈ m ↔ entries_get p m = Some s.
Proof.
  induction m as [|[k v] m IH]; csimpl.
  - intros _. split; [by intros ?%elem_of_nil|done].
  - intros [Hk Hm]%NoDup_cons. rewrite elem_of_cons, (IH Hm).
    destruct (decide (k = p)) as [->|Hne].
    + split; [intros [[= ->]|Hget]; [done|]|intros [= ->]; by left].
      exfalso. apply Hk. apply IH in Hget; [|done].
      by apply (list_elem_of_fmap_2 fst) in Hget.
    + split; [intros [[= ? ?]|?]; [congruence|done]|by right].
Qed.

Lemma entries_get_None p m : p ∉ m.*1 → entries_get p m = None.
Proof.
  induction m as [|[k v] m IH]; csimpl; [done|].
  intros [Hne Hp]%not_elem_of_cons. rewrite decide_False by congruence.
  by apply IH.
Qed.

Lemma entries_of_iterable_foldl it : entries_of_iterable it = foldl set_pair [] it.
Proof. done. Qed.

Lemma foldl_set_NoDup it m : NoDup m.*1 → NoDup (foldl set_pair m it).*1.
Proof.
  revert m. induction it as [|[k v] it IH]; simpl; intros m H; [done|].
  apply IH. by apply entries_set_NoDup.
Qed.

Lemma set_pair_keys m kv :
  (set_pair m kv).*1 = if decide (kv.1 ∈ m.*1) then m.*1 else m.*1 ++ [kv.1].
Proof. apply entries_set_keys. Qed.

Lemma foldl_set_keys it m :
  (foldl set_pair m it).*1 = m.*1 ++ filter (λ x, x ∉ m.*1) (first_seen it.*1).
Proof.
  revert m. induction it as [|[k v] it IH]; csimpl; intros m.
  - by rewrite app_nil_r.
  - rewrite IH, set_pair_keys, filter_cons, list_filter_filter. cbn [fst].
    destruct (decide (k ∈ m.*1)) as [Hin|Hin].
    + destruct (decide (k ∉ m.*1)) as [Hn|_]; [done|]. f_equal.
      apply list_filter_iff. intros x. split; [|tauto].
      intros Hx. split; [done|]. by intros ->.
    + destruct (decide (k ∉ m.*1)) as [_|Hn]; [|done].
      rewrite <- app_assoc. simpl. do 2 f_equal.
      apply list_filter_iff. intros x.
      rewrite elem_of_app, list_elem_of_singleton. tauto.
Qed.

Lemma foldl_set_get p it m :
  entries_get p (foldl set_pair m it) =
    match last_write p it with
    | Some s => Some s
    | None => entries_get p m
    end.
Proof.
  revert m. induction it as [|[k v] it IH]; simpl; intros m; [done|].
  rewrite IH. destruct (last_write p it); [done|].
  unfold set_pair. simpl. rewrite entries_get_set.
  by destruct (decide (k = p)).
Qed.

Lemma first_seen_elem k ks : k ∈ first_seen ks ↔ k ∈ ks.
Proof.
  induction ks as [|a ks IH]; simpl; [done|].
  rewrite !elem_of_cons, list_elem_of_filter, IH.
  destruct (decide (k = a)); tauto.
Qed.

Lemma first_seen_NoDup ks : NoDup (first_seen ks).
Proof.
  induction ks as [|a ks IH]; simpl; [apply NoDup_nil_2|].
  apply NoDup_cons. split; [|by apply NoDup_filter].
  rewrite list_elem_of_filter. tauto.
Qed.

Lemma first_seen_of_NoDup ks : NoDup ks → first_seen ks = ks.
Proof.
  induction ks as [|a ks IH]; simpl; [done|].
  intros [Ha Hks]%NoDup_cons. rewrite IH by done. f_equal.
  clear IH Hks. induction ks as [|b ks IHk]; [done|].
  apply not_elem_of_cons in Ha as [Hab Ha].
  rewrite filter_cons, decide_True by congruence. f_equal. by apply IHk.
Qed.

(** The first occurrences come in the order of the sequence. *)
Lemma first_seen_sublist ks : first_seen ks `sublist_of` ks.
Proof.
  induction ks as [|k ks IH]; simpl; [constructor|].
  constructor. etransitivity; [apply sublist_filter|done].
Qed.

(* ===================================================================== *)
(** ** The loop of [parse] *)
(* ===================================================================== *)

Lemma alter_at_length {A} (f : A → A) (pre : list A) x post :
  alter f (length pre) (pre ++ x :: post) = pre ++ f x :: post.
Proof. induction pre as [|a pre IH]; csimpl; [done|]. by rewrite <- IH. Qed.

Lemma lookup_at_length {A} (pre : list A) x post :
  (pre ++ x :: post) !! length pre = Some x.
Proof. by rewrite list_lookup_middle. Qed.

Lemma parse_loop_scan lines pre m post :
  parse_loop (length pre) lines (pre ++ m :: post) =
    (completion_of_scan (scan lines m).2, pre ++ (scan lines m).1 :: post).
Proof.
  revert m. induction lines as [|line rest IH]; intros m; simpl; [done|].
  destruct (negb (truthy line)); [apply IH|].
  destruct (parse_line line) as [[path status]|]; [|done].
  unfold bind, Map_set. rewrite alter_at_length. apply IH.
Qed.

Lemma parse_scan text st :
  parse text st =
    (match (scan (split LF text) []).2 with
     | None => Normal {| diff := length st |}
     | Some line => Throw (invalid_line line)
     end,
     st ++ [(scan (split LF text) []).1]).
Proof.
  unfold parse, bind, Map_new. cbn [entries_of_iterable foldl].
  rewrite parse_loop_scan. by destruct (scan _ _).2.
Qed.

Lemma line_ok_dec line : line_ok line ∨ malformed line.
Proof.
  unfold line_ok, malformed. destruct line as [|c line]; [by left; left|].
  destruct (parse_line (c :: line)) eqn:E; [left; right; eauto|by right].
Qed.

(** When every line is fine the loop ends and has written the records in
    order. *)
Lemma scan_ok lines m :
  Forall line_ok lines →
  scan lines m = (foldl set_pair m (records_of lines), None).
Proof.
  unfold records_of.
  revert m. induction lines as [|line rest IH]; intros m Hall; simpl; [done|].
  apply Forall_cons in Hall as [Hline Hrest].
  destruct line as [|c line]; simpl; [by apply IH|].
  destruct Hline as [?|[[path status] E]]; [done|].
  rewrite E. simpl. by apply IH.
Qed.

(** Otherwise it throws on the first malformed line. *)
Lemma scan_malformed before bad after m :
  Forall line_ok before → malformed bad →
  (scan (before ++ bad :: after) m).2 = Some bad.
Proof.
  intros Hbefore [Hne Hbad]. revert m.
  induction Hbefore as [|line before Hline _ IH]; intros m; simpl.
  - destruct bad; [done|]. simpl. by rewrite Hbad.
  - destruct line as [|c line]; simpl; [apply IH|].
    destruct Hline as [?|[[path status] E]]; [done|]. rewrite E. apply IH.
Qed.

Lemma first_malformed lines :
  Exists malformed lines →
  ∃ before bad after,
    lines = before ++ bad :: after ∧ Forall line_ok before ∧ malformed bad.
Proof.
  induction lines as [|line rest IH]; intros Hex; [by apply Exists_nil in Hex|].
  destruct (line_ok_dec line) as [Hok|Hbad].
  - apply Exists_cons in Hex as [[Hne Hnone]|Hex].
    + destruct Hok as [?|[? ?]]; congruence.
    + destruct (IH Hex) as (before & bad & after & -> & Hb & Hm).
      exists (line :: before), bad, after. split_and!; [done| |done].
      by apply Forall_cons.
  - exists [], line, rest. split_and!; [done|apply Forall_nil_2|done].
Qed.

(* ===================================================================== *)
(** ** The heap *)
(* ===================================================================== *)

Lemma Map_entries_NoDup m st : Store_wf st → NoDup (Map_entries m st).*1.
Proof.
  intros Hwf. unfold Map_entries. destruct (st !! m) as [e|] eqn:E; simpl.
  - by apply (Forall_lookup_1 _ _ _ _ Hwf E).
  - apply NoDup_nil_2.
Qed.

Lemma entries_of_iterable_NoDup it : NoDup (entries_of_iterable it).*1.
Proof. apply foldl_set_NoDup, NoDup_nil_2. Qed.

Lemma Map_new_wf it st : Store_wf st → Store_wf (Map_new it st).2.
Proof.
  intros Hwf. simpl. apply Forall_app. split; [done|].
  apply Forall_singleton, entries_of_iterable_NoDup.
Qed.

Lemma alter_wf (f : JsMap → JsMap) m st :
  (∀ e, NoDup e.*1 → NoDup (f e).*1) → Store_wf st → Store_wf (alter f m st).
Proof.
  intros Hf Hwf. apply Forall_lookup. intros i e.
  destruct (decide (m = i)) as [->|Hne].
  - rewrite list_lookup_alter_eq. destruct (st !! i) as [e'|] eqn:E; [|done].
    intros [= <-]. apply Hf. by apply (Forall_lookup_1 _ _ _ _ Hwf E).
  - rewrite list_lookup_alter_ne by done. intros E.
    by apply (Forall_lookup_1 _ _ _ _ Hwf E).
Qed.

Lemma Map_set_wf m k v st : Store_wf st → Store_wf (Map_set m k v st).2.
Proof. apply alter_wf. intros e. apply entries_set_NoDup. Qed.

Lemma Map_delete_wf m k st : Store_wf st → Store_wf (Map_delete m k st).2.
Proof. apply alter_wf. intros e. apply entries_delete_NoDup. Qed.

Lemma Map_clear_wf m st : Store_wf st → Store_wf (Map_clear m st).2.
Proof. apply alter_wf. intros e _. apply NoDup_nil_2. Qed.

Lemma Map_entries_new st e : Map_entries (length st) (st ++ [e]) = e.
Proof. unfold Map_entries. by rewrite lookup_at_length. Qed.


(** The invariant of the heap holds through everything that the module
    does. *)
Lemma scan_NoDup lines m : NoDup m.*1 → NoDup (scan lines m).1.*1.
Proof.
  revert m. induction lines as [|line rest IH]; intros m Hm; simpl; [done|].
  destruct (negb (truthy line)); [by apply IH|].
  destruct (parse_line line) as [[path status]|]; [|done].
  by apply IH, entries_set_NoDup.
Qed.

Lemma parse_wf text st : Store_wf st → Store_wf (parse text st).2.
Proof.
  intros Hwf. rewrite parse_scan. cbn [snd]. apply Forall_app. split; [done|].
  apply Forall_singleton, scan_NoDup, NoDup_nil_2.
Qed.

Lemma Diff_new_wf arg st : Store_wf st → Store_wf (Diff_new arg st).2.
Proof.
  intros Hwf. destruct arg as [[m|it]|]; [done|by apply Map_new_wf..].
Qed.

(* ===================================================================== *)
(** ** The parser, line by line *)
(* ===================================================================== *)

Lemma parse_ok text st :
  Forall line_ok (split LF text) →
  parse text st =
    (Normal {| diff := length st |}, st ++ [foldl set_pair [] (records text)]).
Proof. intros H. rewrite parse_scan, scan_ok by done. done. Qed.

Lemma parse_throws text before bad after st :
  split LF text = before ++ bad :: after →
  Forall line_ok before → malformed bad →
  ∃ st', parse text st = (Throw (invalid_line bad), st').
Proof.
  intros Hsplit Hbefore Hbad. rewrite parse_scan, Hsplit.
  rewrite (scan_malformed before bad after [] Hbefore Hbad). eauto.
Qed.

Lemma shaped_line_groups status sep c rest :
  forallb is_word status = true →
  sep ≠ [] → forallb is_non_word sep = true →
  is_word c = true → forallb is_dot rest = true →
  take_while is_word (status ++ sep ++ c :: rest) = status ∧
  line_groups (status ++ sep ++ c :: rest) = Some (status, c :: rest).
Proof.
  intros Hstatus Hne Hsep Hc Hrest.
  destruct sep as [|b sep]; [done|]. simpl in Hsep.
  apply andb_true_iff in Hsep as [Hb Hsep].
  assert (is_word b = false) as Hb' by (unfold is_non_word in Hb; by destruct (is_word b)).
  assert (Hnw : is_non_word c = false) by by apply word_not_non_word.
  assert (Htake : take_while is_word (status ++ (b :: sep) ++ c :: rest) = status)
    by by apply take_while_app_stop.
  split; [done|]. unfold line_groups. rewrite Htake.
  replace (drop_while is_word (status ++ (b :: sep) ++ c :: rest))
    with ((b :: sep) ++ c :: rest) by (symmetry; by apply drop_while_app_stop).
  rewrite take_while_app_stop, drop_while_app_stop
    by (simpl; rewrite ?Hb; done).
  simpl truthy. cbn [forallb]. by rewrite word_is_dot, Hrest.
Qed.

Lemma shaped_line status sep c rest :
  status ≠ [] → forallb is_word status = true →
  sep ≠ [] → forallb is_non_word sep = true →
  is_word c = true → forallb is_dot rest = true →
  parse_line (status ++ sep ++ c :: rest) = Some (trim (c :: rest), status).
Proof.
  intros Hne Hstatus Hsne Hsep Hc Hrest. rewrite parse_line_groups.
  destruct (shaped_line_groups status sep c rest) as [_ ->]; try done.
  destruct (trim_start_word c rest Hc) as [t ->].
  by destruct status.
Qed.

Lemma white_space_line_malformed line :
  line ≠ [] → forallb is_white_space line = true → malformed line.
Proof.
  intros Hne Hws. split; [done|]. rewrite parse_line_groups.
  unfold line_groups. destruct line as [|c line]; [done|].
  simpl in Hws. apply andb_true_iff in Hws as [Hc Hws].
  assert (is_word c = false) as Hw.
  { apply white_space_non_word in Hc. unfold is_non_word in Hc.
    by destruct (is_word c). }
  simpl take_while at 2. rewrite Hw.
  by destruct (_ && _).
Qed.

(** The status of a line that the parser accepts is its leading run of
    word characters, which is not empty and is followed by a character of
    another kind. *)
Lemma parse_line_status line path status :
  parse_line line = Some (path, status) →
  status = take_while is_word line ∧ status ≠ [] ∧
  ∃ c rest, drop_while is_word line = c :: rest ∧ is_non_word c = true.
Proof.
  rewrite parse_line_groups. unfold line_groups.
  destruct (drop_while is_word line) as [|c rest] eqn:Erest; [done|].
  simpl take_while. destruct (is_non_word c) eqn:Ec; [|done].
  destruct (_ && _); [|done].
  destruct (take_while is_word line) as [|a run]; [done|].
  destruct (truthy (trim _)); [|done]. intros [= <- <-].
  split_and!; [done..|]. by exists c, rest.
Qed.

(** C1 (as amended): for every line made of a non-empty run of word
    characters, a non-empty run of non-word characters and a remainder that
    starts with a word character and holds no line terminator, the parser
    extracts the leading run of word characters as the status token and the
    remainder, trimmed of surrounding whitespace, as the path. *)
Theorem C1_status_is_leading_word_run status sep c rest :
  status ≠ [] → forallb is_word status = true →
  sep ≠ [] → forallb is_non_word sep = true →
  is_word c = true → forallb is_dot rest = true →
  let line := status ++ sep ++ c :: rest in
  take_while is_word line = status ∧
  parse_line line = Some (trim (c :: rest), status).
Proof.
  intros Hne Hstatus Hsne Hsep Hc Hrest line. split.
  - by apply shaped_line_groups.
  - by apply shaped_line.
Qed.

Lemma C1_status_is_leading_word_run_witness :
  take_while is_word (lit "M" ++ [TAB] ++ lit "src/Diff.ts ") = lit "M" ∧
  parse_line (lit "M" ++ [TAB] ++ lit "src/Diff.ts ")
  = Some (lit "src/Diff.ts", lit "M").
Proof.
  apply (C1_status_is_leading_word_run (lit "M") [TAB] 115%N (lit "rc/Diff.ts "));
    (done || reflexivity).
Defined.

(** C1 as stated fails: on the line "A foo" the leading run of non-word
    characters is empty, while the status token that the parser extracts
    is "A", a word character. *)
Lemma C1_status_not_non_word_run :
  lit "A foo" ≠ [] ∧
  take_while is_non_word (lit "A foo") = [] ∧
  parse_line (lit "A foo") = Some (lit "foo", lit "A").
Proof. split_and!; [done|reflexivity|reflexivity]. Qed.

(** The separator takes every non-word character that follows the status,
    the first characters of a path such as ".gitignore" among them. *)
Example path_loses_leading_non_word :
  parse_line (lit "M" ++ [TAB] ++ lit ".gitignore") = Some (lit "gitignore", lit "M").
Proof. reflexivity. Qed.

Lemma length_records_of lines :
  Forall line_ok lines →
  length (records_of lines) = length (List.filter truthy lines).
Proof.
  unfold records_of. induction 1 as [|line lines Hline _ IH]; [done|].
  destruct line as [|c line]; [done|]. cbn [List.filter truthy].
  destruct Hline as [?|[r E]]; [done|]. csimpl. rewrite E. csimpl.
  by rewrite IH.
Qed.

Lemma filter_not_in_nil (ks : list Path) : filter (λ x, x ∉ []) ks = ks.
Proof.
  induction ks as [|k ks IH]; [done|].
  rewrite filter_cons, decide_True by apply not_elem_of_nil. by rewrite IH.
Qed.

Lemma entries_of_iterable_keys it :
  (entries_of_iterable it).*1 = first_seen it.*1.
Proof.
  rewrite entries_of_iterable_foldl, foldl_set_keys. simpl.
  apply filter_not_in_nil.
Qed.

Lemma entries_of_iterable_elem it p s :
  (p, s) ∈ entries_of_iterable it ↔ last_write p it = Some s.
Proof.
  rewrite entries_get_elem by apply entries_of_iterable_NoDup.
  rewrite entries_of_iterable_foldl, foldl_set_get. simpl.
  by destruct (last_write p it).
Qed.

Lemma first_seen_length ks : (length (first_seen ks) ≤ length ks)%nat.
Proof.
  induction ks as [|k ks IH]; simpl; [done|].
  pose proof (length_filter (λ x, x ≠ k) (first_seen ks)). lia.
Qed.

(** C2 (as amended): for all valid change-list text, parse returns a Diff
    whose size is the number of distinct paths of the non-blank lines; it
    is at most the number of non-blank lines, and equal to it when no two
    lines carry the same path. *)
Theorem C2_size_counts_distinct_paths text st :
  Forall line_ok (split LF text) →
  ∃ d st',
    parse text st = (Normal d, st') ∧
    Diff_size d st' = length (first_seen (records text).*1) ∧
    (Diff_size d st' ≤ length (non_blank_lines text))%nat ∧
    (NoDup (records text).*1 →
     Diff_size d st' = length (non_blank_lines text)).
Proof.
  intros Hok. eexists _, _. split; [by apply parse_ok|].
  unfold Diff_size, Map_size. cbn [diff]. rewrite Map_entries_new.
  assert (Hsize : length (foldl set_pair [] (records text))
                  = length (first_seen (records text).*1)).
  { rewrite <- entries_of_iterable_foldl, <- entries_of_iterable_keys.
    by rewrite length_fmap. }
  assert (Hlines : length (records text).*1 = length (non_blank_lines text)).
  { rewrite length_fmap. by apply length_records_of. }
  rewrite Hsize. split_and!; [done| |].
  - rewrite <- Hlines. apply first_seen_length.
  - intros Hnd. by rewrite first_seen_of_NoDup.
Qed.

Lemma C2_size_counts_distinct_paths_witness :
  ∃ d st',
    parse (lit "A foo" ++ [LF] ++ lit "M bar" ++ [LF]) [] = (Normal d, st') ∧
    Diff_size d st' = 2%nat.
Proof.
  destruct (C2_size_counts_distinct_paths (lit "A foo" ++ [LF] ++ lit "M bar" ++ [LF]) [])
    as (d & st' & Hparse & Hsize & _ & _).
  - repeat (apply Forall_cons; split; [(by left) || (right; by eexists)|]).
    apply Forall_nil_2.
  - exists d, st'. split; [exact Hparse|]. rewrite Hsize. reflexivity.
Defined.

(** C2 as stated fails: in "A foo / M foo" both lines yield a status and a
    path, there are two non-blank lines, and the Diff has size one. *)
Lemma C2_duplicate_path_counts_once :
  let text := lit "A foo" ++ [LF] ++ lit "M foo" in
  Forall line_ok (split LF text) ∧
  length (non_blank_lines text) = 2%nat ∧
  ∃ d st', parse text [] = (Normal d, st') ∧ Diff_size d st' = 1%nat.
Proof.
  split_and!.
  - repeat (apply Forall_cons; split; [right; by eexists|]). apply Forall_nil_2.
  - reflexivity.
  - eexists _, _. split; reflexivity.
Qed.

(** C4: when the text holds a non-empty line from which the status and the
    path cannot both be extracted, parse throws the error of the first such
    line, whose message carries the raw line, and returns no Diff. *)
Theorem C4_malformed_line_fails_parse text st :
  Exists malformed (split LF text) →
  ∃ before bad after st',
    split LF text = before ++ bad :: after ∧
    Forall line_ok before ∧ malformed bad ∧
    parse text st = (Throw (invalid_line bad), st') ∧
    get_prop "message" (invalid_line bad)
    = Some (lit "Invalid line in diff output: " ++ bad) ∧
    ∀ d st'', parse text st ≠ (Normal d, st'').
Proof.
  intros Hex.
  destruct (first_malformed _ Hex) as (before & bad & after & Hsplit & Hb & Hm).
  destruct (parse_throws text before bad after st Hsplit Hb Hm) as [st' Hp].
  exists before, bad, after, st'. split_and!; try done.
  intros d st''. by rewrite Hp.
Qed.

Lemma C4_malformed_line_fails_parse_witness :
  ∃ before bad after st',
    split LF (lit "A foo" ++ [LF] ++ lit "garbage" ++ [LF] ++ lit "D bar")
    = before ++ bad :: after ∧
    Forall line_ok before ∧ malformed bad ∧
    parse (lit "A foo" ++ [LF] ++ lit "garbage" ++ [LF] ++ lit "D bar") []
    = (Throw (invalid_line bad), st') ∧
    get_prop "message" (invalid_line bad)
    = Some (lit "Invalid line in diff output: " ++ bad) ∧
    ∀ d st'',
      parse (lit "A foo" ++ [LF] ++ lit "garbage" ++ [LF] ++ lit "D bar") []
      ≠ (Normal d, st'').
Proof.
  apply C4_malformed_line_fails_parse.
  apply Exists_cons_tl, Exists_cons_hd. split; [done|reflexivity].
Defined.

(** The line "garbage" alone: the error names it. *)
Example garbage_is_malformed :
  parse (lit "garbage") [] = (Throw (invalid_line (lit "garbage")), [[]]) ∧
  get_prop "message" (invalid_line (lit "garbage"))
  = Some (lit "Invalid line in diff output: garbage").
Proof. split; reflexivity. Qed.

Lemma split_shaped_line status sep c rest :
  forallb is_word status = true →
  forallb (λ c, negb (c =? LF)%N) sep = true →
  is_word c = true → forallb is_dot rest = true →
  split LF (status ++ sep ++ c :: rest) = [status ++ sep ++ c :: rest].
Proof.
  intros Hstatus Hsep Hc Hrest. apply split_no_sep.
  rewrite !forallb_app. cbn [forallb].
  rewrite Hsep, (dots_no_LF rest Hrest), (dot_not_LF c (word_is_dot c Hc)).
  rewrite andb_true_r. simpl. apply dots_no_LF.
  rewrite forallb_forall in *. intros x Hx. apply word_is_dot. auto.
Qed.

(** C9 (as amended): every single-letter status code, and more generally
    every non-empty run of word characters (letters, digits, underscore) of
    any length, is accepted by parse and passed through verbatim into the
    statuses of the Diff; no status token is rejected for having several
    characters or for holding digits or underscores. *)
Theorem C9_word_status_passes_through status sep c rest st :
  status ≠ [] → forallb is_word status = true →
  sep ≠ [] → forallb is_non_word sep = true →
  forallb (λ c, negb (c =? LF)%N) sep = true →
  is_word c = true → forallb is_dot rest = true →
  ∃ d st',
    parse (status ++ sep ++ c :: rest) st = (Normal d, st') ∧
    Diff_statuses d st' = [status] ∧
    Diff_paths d st' = [trim (c :: rest)].
Proof.
  intros Hne Hstatus Hsne Hsep Hlf Hc Hrest.
  pose proof (shaped_line status sep c rest Hne Hstatus Hsne Hsep Hc Hrest) as Hline.
  pose proof (split_shaped_line status sep c rest Hstatus Hlf Hc Hrest) as Hsplit.
  eexists _, _. split.
  - apply parse_ok. rewrite Hsplit. apply Forall_singleton. right. by eexists.
  - unfold Diff_statuses, Diff_paths, Map_values, Map_keys. cbn [diff].
    rewrite Map_entries_new. unfold records, records_of. rewrite Hsplit.
    destruct status as [|a status]; [done|].
    cbn [List.filter truthy app]. csimpl.
    change (a :: status ++ sep ++ c :: rest)
      with ((a :: status) ++ sep ++ c :: rest).
    rewrite Hline. done.
Qed.

Lemma C9_word_status_passes_through_witness :
  ∃ d st',
    parse (lit "T" ++ [TAB] ++ lit "src/Diff.ts") [] = (Normal d, st') ∧
    Diff_statuses d st' = [lit "T"] ∧
    Diff_paths d st' = [lit "src/Diff.ts"].
Proof.
  apply (C9_word_status_passes_through (lit "T") [TAB] 115%N (lit "rc/Diff.ts") []);
    (done || reflexivity).
Defined.

(** C9 as stated fails: a status token of several characters and a status
    token that is no letter are both accepted and recorded as they are. *)
Lemma C9_multi_character_status_accepted :
  (∃ d st',
     parse (lit "R100 old") [] = (Normal d, st') ∧
     Diff_statuses d st' = [lit "R100"]) ∧
  (∃ d st',
     parse (lit "7 a") [] = (Normal d, st') ∧ Diff_statuses d st' = [lit "7"]).
Proof. split; eexists _, _; split; reflexivity. Qed.

Lemma parse_throws_on_malformed text st :
  Exists malformed (split LF text) →
  ∃ bad st', parse text st = (Throw (invalid_line bad), st').
Proof.
  intros Hex.
  destruct (first_malformed _ Hex) as (before & bad & after & Hsplit & Hb & Hm).
  destruct (parse_throws text before bad after st Hsplit Hb Hm) as [st' Hp].
  eauto.
Qed.

(** C10: a non-empty line made of whitespace only is malformed: a text
    that holds one makes parse throw, and the error carries that line when
    the lines before it are fine. Only the empty line is skipped: any other
    line is either recorded or thrown on. *)
Theorem C10_whitespace_line_throws line :
  line ≠ [] → forallb is_white_space line = true →
  malformed line ∧
  (∀ text st, line ∈ split LF text →
     ∃ bad st', parse text st = (Throw (invalid_line bad), st')) ∧
  (∀ text before after st,
     split LF text = before ++ line :: after → Forall line_ok before →
     ∃ st', parse text st = (Throw (invalid_line line), st')) ∧
  (∀ map rest st, parse_loop map ([] :: rest) st = parse_loop map rest st) ∧
  (∀ map other rest st, other ≠ [] →
     parse_loop map (other :: rest) st =
       match parse_line other with
       | Some (path, status) =>
           (Map_set map path status ;; parse_loop map rest) st
       | None => (Throw (invalid_line other), st)
       end).
Proof.
  intros Hne Hws.
  pose proof (white_space_line_malformed line Hne Hws) as Hbad.
  split_and!.
  - done.
  - intros text st Hin.
    destruct (parse_throws_on_malformed text st) as (bad & st' & Hp).
    { apply Exists_exists. eauto. }
    eauto.
  - intros text before after st Hsplit Hbefore.
    by apply (parse_throws text before line after).
  - done.
  - intros map other rest st Hother. destruct other; [done|]. simpl.
    by destruct (parse_line _) as [[??]|].
Qed.

Lemma C10_whitespace_line_throws_witness :
  malformed [SPACE; TAB; SPACE] ∧
  ∃ st', parse [SPACE; TAB; SPACE] [] = (Throw (invalid_line [SPACE; TAB; SPACE]), st').
Proof.
  destruct (C10_whitespace_line_throws [SPACE; TAB; SPACE])
    as (Hbad & _ & Hfirst & _); [done|reflexivity|].
  split; [exact Hbad|].
  apply (Hfirst [SPACE; TAB; SPACE] [] []); [reflexivity|apply Forall_nil_2].
Defined.

(* ===================================================================== *)
(** ** The Diff model *)
(* ===================================================================== *)

Lemma Diff_new_iterable it st :
  Diff_new (Some (OfIterable it)) st
  = (Normal {| diff := length st |}, st ++ [entries_of_iterable it]).
Proof. done. Qed.

(** C7: no two entries of a Diff share a path. A Diff made from a sequence
    of pairs, or parsed from text, lists each path once, at the place where
    the path first occurs in the source, with the status written last for
    it; a Diff made from a Map has the distinct keys of that Map. *)
Theorem C7_paths_unique_first_seen_last_wins :
  (∀ it st, ∃ d st',
     Diff_new (Some (OfIterable it)) st = (Normal d, st') ∧
     NoDup (Diff_paths d st') ∧
     Diff_paths d st' = first_seen it.*1 ∧
     ∀ p s, (p, s) ∈ Diff_entries d st' ↔ last_write p it = Some s) ∧
  (∀ text st, Forall line_ok (split LF text) → ∃ d st',
     parse text st = (Normal d, st') ∧
     NoDup (Diff_paths d st') ∧
     Diff_paths d st' = first_seen (records text).*1 ∧
     ∀ p s, (p, s) ∈ Diff_entries d st' ↔ last_write p (records text) = Some s) ∧
  (∀ m st, Store_wf st → ∃ d,
     Diff_new (Some (OfMap m)) st = (Normal d, st) ∧
     Diff_entries d st = Map_entries m st ∧
     NoDup (Diff_paths d st)).
Proof.
  split_and!.
  - intros it st. eexists _, _. split; [apply Diff_new_iterable|].
    unfold Diff_paths, Diff_entries, Map_keys. cbn [diff].
    rewrite Map_entries_new. split_and!.
    + apply entries_of_iterable_NoDup.
    + apply entries_of_iterable_keys.
    + intros p s. apply entries_of_iterable_elem.
  - intros text st Hok. eexists _, _. split; [by apply parse_ok|].
    unfold Diff_paths, Diff_entries, Map_keys. cbn [diff].
    rewrite Map_entries_new, <- entries_of_iterable_foldl. split_and!.
    + apply entries_of_iterable_NoDup.
    + apply entries_of_iterable_keys.
    + intros p s. apply entries_of_iterable_elem.
  - intros m st Hwf. eexists. split_and!; [done..|].
    by apply Map_entries_NoDup.
Qed.

Lemma C7_paths_unique_first_seen_last_wins_witness :
  ∃ d st',
    parse (lit "A foo" ++ [LF] ++ lit "M bar" ++ [LF] ++ lit "D foo") []
    = (Normal d, st') ∧
    Diff_entries d st' = [(lit "foo", lit "D"); (lit "bar", lit "M")].
Proof.
  destruct C7_paths_unique_first_seen_last_wins as (_ & Hparse & _).
  destruct (Hparse (lit "A foo" ++ [LF] ++ lit "M bar" ++ [LF] ++ lit "D foo") [])
    as (d & st' & Hp & _).
  - repeat (apply Forall_cons; split; [right; by eexists|]). apply Forall_nil_2.
  - exists d, st'. split; [exact Hp|].
    injection Hp as <- <-. reflexivity.
Defined.

(* ===================================================================== *)
(** ** Filter and match *)
(* ===================================================================== *)

Section Queries.

Variable isMatch : str → Path → bool.







Lemma Diff_filter_wf d o st :
  Store_wf st → Store_wf (Diff_filter isMatch d o st).2.
Proof. intros Hwf. unfold Diff_filter, bind, read. by apply Diff_new_wf. Qed.


Lemma some_entry_true kind d selector st :
  some_entry kind (Diff_match isMatch d selector) st = true ↔
  ∃ path, (path, kind) ∈ Diff_entries d st
          ∧ glob isMatch (toArray selector) path = true.
Proof.
  unfold some_entry, Diff_match, Diff_entries. cbn [match_diff match_matcher].
  rewrite existsb_exists. split.
  - intros ([path status] & Hin & Hb). apply andb_true_iff in Hb as [Hk Hm].
    apply bool_decide_eq_true in Hk as ->. exists path.
    by rewrite list_elem_of_In.
  - intros (path & Hin & Hm). exists (path, kind).
    rewrite <- list_elem_of_In. split; [done|].
    by rewrite bool_decide_eq_true_2, Hm.
Qed.

Lemma some_entry_false kind d selector st :
  (∀ path status, (path, status) ∈ Diff_entries d st →
                  glob isMatch (toArray selector) path = false) →
  some_entry kind (Diff_match isMatch d selector) st = false.
Proof.
  intros Hnone. apply not_true_is_false. intros Ht.
  apply some_entry_true in Ht as (path & Hin & Hm).
  by rewrite (Hnone _ _ Hin) in Hm.
Qed.


End Queries.



(* ===================================================================== *)
(** ** Ownership of the mapping *)
(* ===================================================================== *)


Lemma external_run_wf steps held st st' :
  Store_wf st → external_run steps held st = Some st' → Store_wf st'.
Proof.
  revert held st. induction steps as [|step steps IH]; intros held st Hwf; simpl.
  - by intros [= <-].
  - destruct step as [it|m k v|m k|m];
      [|destruct (decide (m ∈ held)); [|done]..]; apply IH.
    + by apply (Map_new_wf it).
    + by apply (Map_set_wf m k v).
    + by apply (Map_delete_wf m k).
    + by apply (Map_clear_wf m).
Qed.





(* ===================================================================== *)
(** ** Classifying the failure of the command *)
(* ===================================================================== *)

Lemma try_down_Some {R} (k : nat → option R) lo n r :
  try_down k lo n = Some r → ∃ i, k i = Some r.
Proof.
  induction n as [|n IH]; simpl.
  - destruct (k 0%nat) eqn:E; [|done]. intros [= <-]. eauto.
  - destruct (k (S n)) eqn:E; [intros [= <-]; eauto|].
    destruct (lo <=? n)%nat; [done|done].
Qed.

Lemma try_down_second {R} (k : nat → option R) lo n r :
  k (S n) = None → (lo ≤ n)%nat → k n = Some r → try_down k lo (S n) = Some r.
Proof.
  intros Hfirst Hlo Hk. simpl. rewrite Hfirst.
  destruct (Nat.leb_spec lo n); [|lia]. by apply try_down_hit.
Qed.

Lemma greedy_Some {R} cls min s (k : nat → option R) r :
  greedy cls min s k = Some r → ∃ i, k i = Some r.
Proof.
  unfold greedy. destruct (_ <=? _)%nat; [|done]. apply try_down_Some.
Qed.

(** The pattern has one group. *)
Lemma bad_revision_one_group s groups :
  exec bad_revision_re s = Some groups → ∃ reference, groups = [reference].
Proof.
  unfold exec, bad_revision_re. cbn [anchored pieces].
  induction s as [|c s IH].
  - vm_compute. done.
  - cbn [search].
    destruct (match_here _ (c :: s) []) as [caps|] eqn:E; [|exact IH].
    intros [= <-]. cbn [match_here] in E.
    destruct (starts_with _ _); [|done].
    apply greedy_Some in E as [i E].
    destruct (starts_with _ _); [|done]. injection E as <-. eauto.
Qed.

Lemma search_hit ps s caps :
  match_here ps s [] = Some caps → search ps s = Some caps.
Proof. intros H. destruct s; simpl; by rewrite H. Qed.

Lemma starts_with_app p s : starts_with p (p ++ s) = true.
Proof. induction p as [|a p IH]; simpl; [done|]. by rewrite N.eqb_refl. Qed.

(** The diagnostic that the command prints for a reference it cannot
    resolve: the message at the start, the reference between quotes, then
    the end of the text or of the line. *)
Lemma bad_revision_diagnostic reference post :
  forallb is_dot reference = true →
  (post = [] ∨ ∃ c post', post = c :: post' ∧ is_line_terminator c = true) →
  exec bad_revision_re
    (lit "fatal: bad revision '" ++ reference ++ lit "'" ++ post)
  = Some [reference].
Proof.
  intros Hdots Hpost. unfold exec, bad_revision_re. cbn [anchored pieces].
  set (text := lit "fatal: bad revision '" ++ _).
  assert (match_here
            [Lit (lit "fatal: bad revision '"); Cap is_dot 0; Lit (lit "'")]
            text [] = Some [reference]) as Hm.
  { unfold text. cbn [match_here]. rewrite starts_with_app, drop_app_length.
    assert (Hrun : take_while is_dot (reference ++ lit "'" ++ post)
                   = reference ++ lit "'").
    { destruct Hpost as [->|(c & post' & -> & Hc)].
      - rewrite app_nil_r. apply take_while_all.
        by rewrite forallb_app, Hdots.
      - rewrite app_assoc. apply take_while_app_stop.
        + by rewrite forallb_app, Hdots.
        + unfold is_dot. by rewrite Hc. }
    unfold greedy. rewrite Hrun, length_app. cbn [length lit].
    replace (length reference + 1)%nat with (S (length reference)) by lia.
    cbn [Nat.leb]. apply try_down_second; [|lia|].
    - replace (S (length reference)) with (length (reference ++ lit "'"))
        by (rewrite length_app; simpl; lia).
      rewrite app_assoc, drop_app_length.
      destruct Hpost as [->|(c & post' & -> & Hc)]; [reflexivity|].
      cbn [starts_with].
      destruct (N.eqb_spec (N_of_ascii "'") c) as [<-|]; [|reflexivity].
      vm_compute in Hc. discriminate.
    - rewrite drop_app_length, take_app_length. by rewrite starts_with_app. }
  by apply search_hit.
Qed.

Lemma git_diff_error_props reference k v :
  get_prop k (git_diff_error reference) = Some v ↔
  (k = "code"%string ∧ v = badRevisionErrorCode) ∨
  (k = "name"%string ∧ v = errorName) ∨
  (k = "message"%string ∧ v = lit "The ref does not exist: " ++ reference).
Proof.
  unfold get_prop, git_diff_error, set_prop, new_Error. cbn [props].
  rewrite !lookup_insert_Some, lookup_singleton_Some.
  split.
  - intros [[<- <-]|[_ [[<- <-]|[_ [<- <-]]]]]; auto.
  - intros [[-> ->]|[[-> ->]|[-> ->]]]; [by left|right; split; [done|by left]|].
    right. split; [done|]. right. split; done.
Qed.

Lemma throwGitDiffError_bad_revision error stderr reference st :
  diagnostic error = Some stderr →
  exec bad_revision_re stderr = Some [reference] →
  throwGitDiffError error st = (Throw (git_diff_error reference), st).
Proof.
  unfold diagnostic, throwGitDiffError. intros Hd He.
  destruct (isErrorWithStderr error); [|done]. rewrite Hd.
  cbn [default from_option id]. by rewrite He.
Qed.

Lemma throwGitDiffError_other error st :
  (∀ stderr, diagnostic error = Some stderr →
             exec bad_revision_re stderr = None) →
  throwGitDiffError error st = (Normal (), st).
Proof.
  unfold diagnostic, throwGitDiffError, isErrorWithStderr. intros Hnone.
  destruct (instanceof_Error error); [|done]. cbn [andb] in *.
  destruct (get_prop "stderr" error) as [stderr|]; [|done].
  destruct (truthy stderr); [|done]. cbn [default from_option id].
  by rewrite (Hnone stderr).
Qed.

Section Classifier.

Variable execFile : str * list str * option str → ExecResult.

Lemma diffSync_failure options error st :
  execFile (diffArgs options) = Failure error →
  diffSync execFile options st =
    match throwGitDiffError error st with
    | (Normal _, st') => (Throw error, st')
    | (Throw e, st') => (Throw e, st')
    end.
Proof.
  intros Hfail. unfold diffSync, try_catch, bind, execSync.
  rewrite Hfail. unfold throw. by destruct (throwGitDiffError error st) as [[|]].
Qed.

Lemma diffAsync_failure options error st :
  execFile (diffArgs options) = Failure error →
  diffAsync execFile options st =
    match throwGitDiffError error st with
    | (Normal _, st') => (Throw error, st')
    | (Throw e, st') => (Throw e, st')
    end.
Proof.
  intros Hfail. unfold diffAsync, try_catch, bind, execSync.
  rewrite Hfail. unfold throw. by destruct (throwGitDiffError error st) as [[|]].
Qed.

(** C3 (as amended): when the command fails and its diagnostic matches
    the pattern of a bad revision, the diff operation throws an error
    named GitDiffError with the fixed code BAD_REVISION and the message
    "The ref does not exist: " followed by the extracted reference; the
    error has no other property, so the reference is carried by the
    message alone; when the diagnostic is missing or does not match, the
    original error is thrown again as it is. *)
Theorem C3_bad_revision_is_classified options error st :
  execFile (diffArgs options) = Failure error →
  (∀ stderr reference,
     diagnostic error = Some stderr →
     exec bad_revision_re stderr = Some [reference] →
     ∃ e,
       diffSync execFile options st = (Throw e, st) ∧
       diffAsync execFile options st = (Throw e, st) ∧
       get_prop "name" e = Some errorName ∧
       get_prop "code" e = Some badRevisionErrorCode ∧
       get_prop "message" e
       = Some (lit "The ref does not exist: " ++ reference) ∧
       ∀ k v, get_prop k e = Some v →
              k ∈ ["code"; "name"; "message"]%string) ∧
  ((∀ stderr, diagnostic error = Some stderr →
              exec bad_revision_re stderr = None) →
   diffSync execFile options st = (Throw error, st) ∧
   diffAsync execFile options st = (Throw error, st)).
Proof.
  intros Hfail. split.
  - intros stderr reference Hd He. exists (git_diff_error reference).
    rewrite (diffAsync_failure _ _ _ Hfail), (diffSync_failure _ _ _ Hfail).
    rewrite (throwGitDiffError_bad_revision _ _ _ _ Hd He).
    split_and!; try done.
    intros k v [[-> _]|[[-> _]|[-> _]]]%git_diff_error_props;
      rewrite !elem_of_cons; auto.
  - intros Hnone.
    rewrite (diffAsync_failure _ _ _ Hfail), (diffSync_failure _ _ _ Hfail).
    by rewrite (throwGitDiffError_other _ _ Hnone).
Qed.

End Classifier.

Lemma C3_bad_revision_is_classified_witness :
  ∃ e,
    diffSync (failing_command (lit "fatal: bad revision 'nope'")) sample_options []
    = (Throw e, []) ∧
    get_prop "code" e = Some (lit "BAD_REVISION") ∧
    get_prop "message" e = Some (lit "The ref does not exist: nope").
Proof.
  destruct (C3_bad_revision_is_classified
              (failing_command (lit "fatal: bad revision 'nope'"))
              sample_options
              (set_prop "stderr" (lit "fatal: bad revision 'nope'")
                 (new_Error (lit "Command failed")))
              [] eq_refl) as [Hmatch _].
  destruct (Hmatch (lit "fatal: bad revision 'nope'") (lit "nope"))
    as (e & Hsync & _ & _ & Hcode & Hmessage & _); [reflexivity..|].
  exists e. split_and!; [exact Hsync|exact Hcode|exact Hmessage].
Defined.

(** C3 as stated fails: for the diagnostic "fatal: bad revision 'nope'" the
    error that is thrown has no property equal to "nope"; the reference
    shows in the message only. *)
Lemma C3_error_has_no_reference_field :
  ∃ e,
    diffSync (failing_command (lit "fatal: bad revision 'nope'")) sample_options []
    = (Throw e, []) ∧
    get_prop "message" e = Some (lit "The ref does not exist: nope") ∧
    ∀ k, get_prop k e ≠ Some (lit "nope").
Proof.
  exists (git_diff_error (lit "nope")). split_and!.
  - rewrite (diffSync_failure _ _ _ _ eq_refl).
    by rewrite (throwGitDiffError_bad_revision _
                  (lit "fatal: bad revision 'nope'") (lit "nope")).
  - by apply git_diff_error_props; right; right.
  - intros k [[_ [=]]|[[_ [=]]|[_ [=]]]]%git_diff_error_props.
Qed.

(* ===================================================================== *)
(** ** More on the parser *)
(* ===================================================================== *)

Lemma split_not_nil sep s : ∃ piece pieces, split sep s = piece :: pieces.
Proof.
  induction s as [|c s (piece & pieces & IH)]; simpl; [eauto|].
  destruct (c =? sep)%N; [eauto|]. rewrite IH. eauto.
Qed.

Lemma split_app_sep sep s t :
  split sep (s ++ sep :: t) = split sep s ++ split sep t.
Proof.
  induction s as [|c s IH]; simpl.
  - by rewrite N.eqb_refl.
  - destruct (c =? sep)%N; [by rewrite IH|].
    rewrite IH. by destruct (split_not_nil sep s) as (piece & pieces & ->).
Qed.

Lemma split_sep_end sep s : split sep (s ++ [sep]) = split sep s ++ [[]].
Proof. apply split_app_sep. Qed.

Lemma split_repeat_sep sep n : split sep (repeat sep n) = repeat [] (S n).
Proof.
  induction n as [|n IH]; simpl; [done|]. by rewrite N.eqb_refl, IH.
Qed.

Lemma scan_blank_end lines m : scan (lines ++ [[]]) m = scan lines m.
Proof.
  revert m. induction lines as [|line rest IH]; intros m; simpl; [done|].
  destruct (negb (truthy line)); [apply IH|].
  destruct (parse_line line) as [[path status]|]; [apply IH|done].
Qed.

Lemma scan_blanks n m : scan (repeat [] n) m = (m, None).
Proof. induction n as [|n IH]; simpl; done. Qed.

Lemma scan_app_ok lines1 lines2 m :
  Forall line_ok lines1 →
  scan (lines1 ++ lines2) m = scan lines2 (foldl set_pair m (records_of lines1)).
Proof.
  unfold records_of. intros Hok. revert m.
  induction Hok as [|line rest Hline _ IH]; intros m; [done|].
  destruct line as [|c line]; [apply IH|].
  destruct Hline as [?|[[path status] E]]; [done|].
  cbn [app scan truthy negb List.filter]. csimpl. rewrite E. csimpl. apply IH.
Qed.

(** X1. Text that holds nothing but newlines gives the empty Diff: every one
    of its lines is the empty string, which the loop skips. *)
Theorem parse_only_newlines n st :
  ∃ d st',
    parse (repeat LF n) st = (Normal d, st') ∧
    Diff_size d st' = 0 ∧ Diff_entries d st' = [].
Proof.
  eexists _, _. split.
  - rewrite parse_scan, split_repeat_sep, scan_blanks. reflexivity.
  - unfold Diff_size, Map_size, Diff_entries. cbn [diff].
    by rewrite Map_entries_new.
Qed.

(** X2. A newline at the start or at the end of the text changes nothing:
    parse completes the same way, with the same entries or the same
    error. *)
Theorem parse_ignores_outer_newline text st :
  parse (text ++ [LF]) st = parse text st ∧
  parse (LF :: text) st = parse text st.
Proof.
  split.
  - by rewrite !parse_scan, split_sep_end, scan_blank_end.
  - rewrite !parse_scan. change (LF :: text) with ([] ++ LF :: text).
    by rewrite split_app_sep.
Qed.

Lemma entries_set_elem_inv k v (m : JsMap) entry :
  entry ∈ entries_set k v m → entry = (k, v) ∨ entry ∈ m.
Proof.
  induction m as [|[k' v'] m IH]; simpl.
  - intros ->%list_elem_of_singleton. by left.
  - destruct (decide (k' = k)) as [->|Hne]; rewrite !elem_of_cons.
    + intros [->|Hin]; [by left|by right; right].
    + intros [->|Hin]; [by right; left|].
      destruct (IH Hin) as [->|Hm]; [by left|by right; right].
Qed.

Lemma scan_entries lines m entry :
  entry ∈ (scan lines m).1 →
  entry ∈ m ∨ ∃ line, line ∈ lines ∧ parse_line line = Some entry.
Proof.
  revert m. induction lines as [|line rest IH]; intros m; simpl; [by left|].
  assert (Hrest : ∀ m', entry ∈ (scan rest m').1 →
            entry ∈ m' ∨ ∃ l, l ∈ line :: rest ∧ parse_line l = Some entry).
  { intros m' Hin. destruct (IH m' Hin) as [?|(l & Hl & El)]; [by left|].
    right. exists l. split; [by apply list_elem_of_further|done]. }
  destruct (negb (truthy line)); [apply Hrest|].
  destruct (parse_line line) as [[path status]|] eqn:E; [|by left].
  intros Hin. destruct (Hrest _ Hin) as [Hset|?]; [|by right].
  destruct (entries_set_elem_inv _ _ _ _ Hset) as [->|?]; [|by left].
  right. exists line. split; [apply list_elem_of_here|done].
Qed.

Lemma drop_while_head p s c r : drop_while p s = c :: r → p c = false.
Proof.
  induction s as [|a s IH]; simpl; [done|].
  destruct (p a) eqn:E; [done|]. by intros [= <- _].
Qed.

Lemma forallb_drop_while (p q : char → bool) s :
  forallb q s = true → forallb q (drop_while p s) = true.
Proof.
  induction s as [|a s IH]; simpl; [done|].
  intros Hq. destruct (p a); [|done].
  apply andb_true_iff in Hq as [_ Hq]. by apply IH.
Qed.

Lemma forallb_rev (q : char → bool) s : forallb q (rev s) = forallb q s.
Proof.
  induction s as [|a s IH]; simpl; [done|].
  rewrite forallb_app, IH. simpl. rewrite andb_true_r. apply andb_comm.
Qed.

Lemma forallb_trim (q : char → bool) s :
  forallb q s = true → forallb q (trim s) = true.
Proof.
  intros H. unfold trim, trim_end, trim_start.
  rewrite forallb_rev. apply forallb_drop_while.
  rewrite forallb_rev. by apply forallb_drop_while.
Qed.

Lemma trim_last s t c : trim s = t ++ [c] → is_white_space c = false.
Proof.
  unfold trim, trim_end. intros H.
  apply (f_equal (@rev _)) in H. rewrite rev_involutive, rev_unit in H.
  by apply drop_while_head in H.
Qed.

Lemma parse_line_shape line entry :
  parse_line line = Some entry → record_shape entry.
Proof.
  destruct entry as [path status]. rewrite parse_line_groups.
  unfold line_groups.
  set (rest := drop_while is_word line).
  destruct (truthy (take_while is_non_word rest)); [|done].
  destruct (forallb is_dot (drop_while is_non_word rest)) eqn:Edots; [|done].
  cbn [andb].
  destruct (take_while is_word line) as [|a run] eqn:Erun; [done|].
  cbn [truthy andb].
  destruct (trim (drop_while is_non_word rest)) as [|b path'] eqn:Etrim; [done|].
  cbn [truthy]. intros [= <- <-]. unfold record_shape. cbn [fst snd].
  split_and!.
  - done.
  - rewrite <- Erun. apply take_while_forallb.
  - destruct (drop_while is_non_word rest) as [|c tail] eqn:Etail; [done|].
    assert (is_word c = true) as Hc.
    { apply drop_while_head in Etail. unfold is_non_word in Etail.
      by destruct (is_word c). }
    destruct (trim_start_word c tail Hc) as [t Ht].
    rewrite Ht in Etrim. injection Etrim as <- <-. eauto.
  - rewrite <- Etrim. by apply forallb_trim.
  - intros t c. rewrite <- Etrim. apply trim_last.
Qed.

(** X3. Every entry of a parsed Diff has the shape of a record: a status that
    is a non-empty run of word characters, and a path that starts with a
    word character, holds no line terminator and does not end in
    whitespace. In particular no parsed path starts with a dot, a slash or
    a dash. *)
Theorem parsed_entries_have_record_shape text st d st' :
  parse text st = (Normal d, st') →
  Forall record_shape (Diff_entries d st').
Proof.
  rewrite parse_scan. intros Hparse.
  destruct (scan (split LF text) []).2 eqn:Ebad; [done|].
  injection Hparse as <- <-.
  unfold Diff_entries. cbn [diff]. rewrite Map_entries_new.
  apply Forall_forall. intros entry Hin.
  destruct (scan_entries _ _ _ Hin) as [Hnil|(line & _ & Hline)].
  - by apply elem_of_nil in Hnil.
  - by apply (parse_line_shape line).
Qed.

Lemma parsed_entries_have_record_shape_witness :
  Forall record_shape
    [(lit "src/Diff.ts", lit "M"); (lit "gitignore", lit "A")].
Proof.
  apply (parsed_entries_have_record_shape
           (lit "M src/Diff.ts " ++ [LF] ++ lit "A .gitignore") []
           {| diff := 0 |}
           [[(lit "src/Diff.ts", lit "M"); (lit "gitignore", lit "A")]]).
  reflexivity.
Defined.

Lemma shaped_runs status sep c more :
  forallb is_word status = true →
  sep ≠ [] → forallb is_non_word sep = true → is_word c = true →
  take_while is_word (status ++ sep ++ c :: more) = status ∧
  take_while is_non_word
    (drop_while is_word (status ++ sep ++ c :: more)) = sep ∧
  drop_while is_non_word
    (drop_while is_word (status ++ sep ++ c :: more)) = c :: more.
Proof.
  intros Hstatus Hne Hsep Hc.
  destruct sep as [|b sep]; [done|].
  assert (is_word b = false) as Hb.
  { simpl in Hsep. apply andb_true_iff in Hsep as [Hb _].
    unfold is_non_word in Hb. by destruct (is_word b). }
  assert (is_non_word c = false) as Hnw by by apply word_not_non_word.
  cbn [app].
  rewrite (drop_while_app_stop is_word status b (sep ++ c :: more)) by done.
  split_and!.
  - by apply (take_while_app_stop is_word status b).
  - by apply (take_while_app_stop is_non_word (b :: sep) c).
  - by apply (drop_while_app_stop is_non_word (b :: sep) c).
Qed.

(** X4. A record that is followed by a carriage return, or by any other line
    terminator but the newline, is malformed: the rest of a line must run
    to its end without a line terminator. Text with CRLF line ends
    therefore makes parse throw on its first record. *)
Theorem line_terminator_in_path_is_malformed status sep c rest lt more :
  status ≠ [] → forallb is_word status = true →
  sep ≠ [] → forallb is_non_word sep = true →
  forallb (λ c, negb (c =? LF)%N) sep = true →
  is_word c = true → forallb is_dot rest = true →
  is_line_terminator lt = true →
  parse_line (status ++ sep ++ c :: rest ++ lt :: more) = None ∧
  ∀ st following, ∃ st',
    parse (status ++ sep ++ c :: rest ++ CR :: LF :: following) st
    = (Throw (invalid_line (status ++ sep ++ c :: rest ++ [CR])), st').
Proof.
  intros Hne Hstatus Hsne Hsep Hlf Hc Hrest Hlt.
  assert (Hnone : ∀ lt' more', is_line_terminator lt' = true →
            parse_line (status ++ sep ++ c :: rest ++ lt' :: more') = None).
  { intros lt' more' Hlt'. rewrite parse_line_groups. unfold line_groups.
    destruct (shaped_runs status sep c (rest ++ lt' :: more'))
      as (-> & -> & ->); try done.
    assert (forallb is_dot (c :: rest ++ lt' :: more') = false) as ->.
    { cbn [forallb]. rewrite forallb_app. cbn [forallb].
      unfold is_dot at 3. rewrite Hlt'. cbn [negb andb].
      by rewrite !andb_false_r. }
    by rewrite andb_false_r. }
  split; [by apply Hnone|].
  intros st following.
  apply (parse_throws _ [] (status ++ sep ++ c :: rest ++ [CR])
           (split LF following)).
  - replace (status ++ sep ++ c :: rest ++ CR :: LF :: following)
      with ((status ++ sep ++ c :: rest ++ [CR]) ++ LF :: following)
      by (rewrite <- !app_assoc; simpl; by rewrite <- app_assoc).
    rewrite split_app_sep, split_no_sep; [done|].
    rewrite !forallb_app. cbn [forallb].
    rewrite forallb_app. cbn [forallb].
    rewrite Hlf, (dots_no_LF rest Hrest), (dot_not_LF c (word_is_dot c Hc)).
    cbn. rewrite andb_true_r. apply dots_no_LF.
    rewrite forallb_forall in *. intros x Hx. apply word_is_dot. auto.
  - apply Forall_nil_2.
  - split; [by destruct status|]. by apply Hnone.
Qed.

Lemma line_terminator_in_path_is_malformed_witness :
  parse_line (lit "M" ++ [TAB] ++ lit "src/Diff.ts" ++ [CR]) = None ∧
  ∃ st',
    parse (lit "M" ++ [TAB] ++ lit "src/Diff.ts" ++ [CR; LF] ++ lit "A x") []
    = (Throw (invalid_line (lit "M" ++ [TAB] ++ lit "src/Diff.ts" ++ [CR])), st').
Proof.
  destruct (line_terminator_in_path_is_malformed
              (lit "M") [TAB] 115%N (lit "rc/Diff.ts") CR [])
    as [Hline Htext]; try (done || reflexivity).
  split; [exact Hline|]. exact (Htext [] (lit "A x")).
Defined.

(** X5. A line whose status is followed by no word character at all is
    malformed: the status alone, the status and a separator, or a path made
    of punctuation only, such as ".." or "-". *)
Theorem no_word_after_status_is_malformed status sep :
  forallb is_word status = true → forallb is_non_word sep = true →
  parse_line (status ++ sep) = None ∧
  (status ++ sep ≠ [] → malformed (status ++ sep)).
Proof.
  intros Hstatus Hsep.
  assert (parse_line (status ++ sep) = None) as Hnone; [|by split].
  rewrite parse_line_groups. unfold line_groups.
  destruct sep as [|b sep].
  - rewrite app_nil_r, drop_while_all by done. done.
  - assert (is_word b = false) as Hb.
    { simpl in Hsep. apply andb_true_iff in Hsep as [Hb _].
      unfold is_non_word in Hb. by destruct (is_word b). }
    rewrite (drop_while_app_stop is_word status b sep) by done.
    rewrite (take_while_app_stop is_word status b sep) by done.
    rewrite take_while_all, drop_while_all by done.
    cbn [truthy forallb andb]. by destruct status.
Qed.

Lemma no_word_after_status_is_malformed_witness :
  parse_line (lit "M" ++ [TAB] ++ lit "..") = None.
Proof.
  by destruct (no_word_after_status_is_malformed (lit "M") ([TAB] ++ lit ".."))
    as [Hnone _].
Defined.

(** X6. The characters of a path that come before its first word character are
    not recorded: the separator takes them, so the line records the same
    path as the line without them. *)
Theorem leading_non_word_of_path_is_dropped status sep lead c rest :
  status ≠ [] → forallb is_word status = true →
  sep ≠ [] → forallb is_non_word sep = true →
  forallb is_non_word lead = true →
  is_word c = true → forallb is_dot rest = true →
  parse_line (status ++ sep ++ lead ++ c :: rest)
  = Some (trim (c :: rest), status) ∧
  parse_line (status ++ sep ++ lead ++ c :: rest)
  = parse_line (status ++ sep ++ c :: rest).
Proof.
  intros Hne Hstatus Hsne Hsep Hlead Hc Hrest.
  assert (parse_line (status ++ sep ++ lead ++ c :: rest)
          = Some (trim (c :: rest), status)) as Hl.
  { rewrite (app_assoc sep lead). apply shaped_line; try done.
    - by destruct sep.
    - by rewrite forallb_app, Hsep, Hlead. }
  split; [done|]. rewrite Hl. symmetry. by apply shaped_line.
Qed.

Lemma leading_non_word_of_path_is_dropped_witness :
  parse_line (lit "A" ++ [TAB] ++ lit "./" ++ lit "src/a.ts")
  = Some (lit "src/a.ts", lit "A").
Proof.
  apply (leading_non_word_of_path_is_dropped
           (lit "A") [TAB] (lit "./") 115%N (lit "rc/a.ts"));
    (done || reflexivity).
Defined.

(** X7. Parsing two texts joined by a newline is parsing the first and then
    writing the records of the second, in order, into the result. *)
Theorem parse_joined_texts text1 text2 st :
  Forall line_ok (split LF text1) → Forall line_ok (split LF text2) →
  ∃ d1 st1 d st',
    parse text1 st = (Normal d1, st1) ∧
    parse (text1 ++ LF :: text2) st = (Normal d, st') ∧
    records (text1 ++ LF :: text2) = records text1 ++ records text2 ∧
    Diff_entries d st'
    = foldl (λ m kv, entries_set kv.1 kv.2 m) (Diff_entries d1 st1)
        (records text2).
Proof.
  intros Hok1 Hok2.
  assert (Hrec : records (text1 ++ LF :: text2) = records text1 ++ records text2).
  { unfold records, records_of. rewrite split_app_sep.
    by rewrite List.filter_app, omap_app. }
  eexists _, _, _, _. split_and!.
  - by apply parse_ok.
  - apply parse_ok. rewrite split_app_sep. by apply Forall_app.
  - done.
  - unfold Diff_entries. cbn [diff]. rewrite !Map_entries_new, Hrec.
    by rewrite foldl_app.
Qed.

Lemma parse_joined_texts_witness :
  ∃ d st',
    parse (lit "A foo" ++ LF :: lit "M foo") [] = (Normal d, st') ∧
    Diff_entries d st' = [(lit "foo", lit "M")].
Proof.
  destruct (parse_joined_texts (lit "A foo") (lit "M foo") [])
    as (d1 & st1 & d & st' & H1 & H & _ & He).
  - apply Forall_singleton. right. by eexists.
  - apply Forall_singleton. right. by eexists.
  - exists d, st'. split; [exact H|]. rewrite He.
    injection H1 as <- <-. reflexivity.
Defined.

(* ===================================================================== *)
(** ** More on filter, contains and match *)
(* ===================================================================== *)

Section MoreQueries.

Variable isMatch : str → Path → bool.

















(** X14. A selector of [match] that names no path, which is [undefined], the
    empty string or the empty array, makes the six booleans false whatever
    the Diff holds. *)
Theorem match_with_empty_selector d selector st :
  empty_selector selector →
  let m := Diff_match isMatch d selector in
  Match_added m st = false ∧ Match_changed m st = false ∧
  Match_deleted m st = false ∧ Match_modified m st = false ∧
  Match_renamed m st = false ∧ Match_unknown m st = false.
Proof.
  intros Hempty m.
  assert (toArray selector = []) as Harr
    by by destruct Hempty as [->|[-> | ->]].
  split_and!; apply some_entry_false; intros path status _; by rewrite Harr.
Qed.

Lemma entries_set_elem k v (m : JsMap) : (k, v) ∈ entries_set k v m.
Proof.
  induction m as [|[k' v'] m IH]; simpl; [apply list_elem_of_here|].
  destruct (decide (k' = k)) as [->|Hne]; [apply list_elem_of_here|].
  by apply list_elem_of_further.
Qed.

Lemma some_entry_after_set kind d selector path st :
  is_Some (st !! diff d) →
  glob isMatch (toArray selector) path = true →
  some_entry kind (Diff_match isMatch d selector)
    (Map_set (diff d) path kind st).2 = true.
Proof.
  intros [e He] Hg. apply some_entry_true. exists path. split; [|done].
  unfold Diff_entries, Map_entries, Map_set. cbn [snd].
  rewrite list_lookup_alter_eq, He. cbn. apply entries_set_elem.
Qed.

(** X15. The result of [match] is a live view: a getter read after the Map of
    the Diff was given an entry reports that entry, although [match] was
    called before. *)
Theorem match_getters_read_the_map_when_called d selector path st :
  is_Some (st !! diff d) →
  glob isMatch (toArray selector) path = true →
  let m := Diff_match isMatch d selector in
  Match_added m (Map_set (diff d) path Status.Added st).2 = true ∧
  Match_changed m (Map_set (diff d) path Status.Changed st).2 = true ∧
  Match_deleted m (Map_set (diff d) path Status.Deleted st).2 = true ∧
  Match_modified m (Map_set (diff d) path Status.Modified st).2 = true ∧
  Match_renamed m (Map_set (diff d) path Status.Renamed st).2 = true ∧
  Match_unknown m (Map_set (diff d) path Status.Unknown st).2 = true.
Proof. intros He Hg m. split_and!; by apply some_entry_after_set. Qed.


End MoreQueries.







Lemma match_with_empty_selector_witness :
  Match_unknown (Diff_match exact_match {| diff := 0 |} (One []))
    [sample_entries] = false.
Proof.
  apply (match_with_empty_selector exact_match {| diff := 0 |} (One [])
           [sample_entries]).
  right. left. reflexivity.
Defined.

Lemma match_getters_read_the_map_when_called_witness :
  Match_added (Diff_match exact_match {| diff := 0 |} (One (lit "README.md")))
    (Map_set 0 (lit "README.md") Status.Added [sample_entries]).2 = true.
Proof.
  apply (match_getters_read_the_map_when_called exact_match {| diff := 0 |}
           (One (lit "README.md")) (lit "README.md") [sample_entries]).
  - by eexists.
  - reflexivity.
Defined.


(* ===================================================================== *)
(** ** More on running the command *)
(* ===================================================================== *)

Lemma invalid_line_not_classified line st :
  throwGitDiffError (invalid_line line) st = (Normal (), st).
Proof.
  apply throwGitDiffError_other. intros stderr.
  unfold diagnostic, isErrorWithStderr, get_prop, invalid_line, new_Error.
  cbn [props instanceof_Error andb].
  by rewrite lookup_singleton_ne.
Qed.

Lemma drop_while_app_all (p : char → bool) s t :
  forallb p s = true → drop_while p (s ++ t) = drop_while p t.
Proof.
  induction s as [|c s IH]; simpl; [done|].
  intros [-> H]%andb_true_iff. by apply IH.
Qed.

Lemma drop_while_ws_words s :
  forallb is_word s = true → drop_while is_white_space s = s.
Proof.
  destruct s as [|c s]; simpl; [done|]. intros [Hc _]%andb_true_iff.
  by rewrite word_not_white_space.
Qed.

Lemma trim_words_then_white_space hash ws :
  forallb is_word hash = true → forallb is_white_space ws = true →
  trim (hash ++ ws) = hash.
Proof.
  intros Hhash Hws. unfold trim, trim_start, trim_end.
  destruct hash as [|a hash].
  - cbn [app]. by rewrite (drop_while_all _ ws Hws).
  - assert (drop_while is_white_space ((a :: hash) ++ ws) = (a :: hash) ++ ws)
      as ->.
    { simpl in Hhash. apply andb_true_iff in Hhash as [Ha _].
      simpl. by rewrite word_not_white_space. }
    rewrite rev_app_distr, drop_while_app_all by by rewrite forallb_rev.
    rewrite drop_while_ws_words by by rewrite forallb_rev.
    apply rev_involutive.
Qed.

Section MoreExec.

Variable execFile : str * list str * option str → ExecResult.

(** X17. When the command succeeds, the diff operation completes the way
    [parse] completes on its output: with the parsed Diff, or with the
    error of the malformed line, which the classifier lets through as it
    is, whatever the line says. *)
Theorem diff_of_output_is_parse options text st :
  execFile (diffArgs options) = Stdout text →
  diffSync execFile options st = parse text st ∧
  diffAsync execFile options st = parse text st.
Proof.
  intros Hout.
  assert (try_catch
            (let* stdout := execSync execFile (diffArgs options) in parse stdout)
            (λ error, throwGitDiffError error ;; throw error) st
          = parse text st) as H.
  { unfold try_catch, bind at 1, execSync. rewrite Hout. unfold ret at 1.
    rewrite parse_scan. destruct (scan (split LF text) []).2 as [line|]; [|done].
    unfold bind. by rewrite invalid_line_not_classified. }
  split; exact H.
Qed.

(** X18. The diagnostic that git prints for a reference it cannot resolve
    gives the error whose message ends with that very reference, whatever
    characters the reference holds, quotes among them. *)
Theorem bad_revision_reference_is_extracted options error reference post st :
  execFile (diffArgs options) = Failure error →
  instanceof_Error error = true →
  get_prop "stderr" error
  = Some (lit "fatal: bad revision '" ++ reference ++ lit "'" ++ post) →
  forallb is_dot reference = true →
  (post = [] ∨ ∃ c post', post = c :: post' ∧ is_line_terminator c = true) →
  diffSync execFile options st = (Throw (git_diff_error reference), st) ∧
  diffAsync execFile options st = (Throw (git_diff_error reference), st) ∧
  get_prop "message" (git_diff_error reference)
  = Some (lit "The ref does not exist: " ++ reference) ∧
  get_prop "code" (git_diff_error reference) = Some (lit "BAD_REVISION").
Proof.
  intros Hfail Herr Hstderr Hdots Hpost.
  assert (Hd : diagnostic error
               = Some (lit "fatal: bad revision '" ++ reference ++ lit "'" ++ post)).
  { unfold diagnostic, isErrorWithStderr. by rewrite Herr, Hstderr. }
  pose proof (bad_revision_diagnostic reference post Hdots Hpost) as Hexec.
  rewrite (diffSync_failure _ _ _ _ Hfail), (diffAsync_failure _ _ _ _ Hfail).
  rewrite (throwGitDiffError_bad_revision _ _ _ _ Hd Hexec).
  split_and!; [done..| |]; apply git_diff_error_props; auto.
Qed.

(** X19. The first commit is the output of the command without the whitespace
    around it, so the newline that ends the output is not part of it; a
    failure of the command is thrown as it is, with no classification. *)
Theorem firstCommit_is_trimmed_output options st :
  (∀ hash ws,
     execFile (FirstCommit.firstCommitArgs options) = Stdout (hash ++ ws) →
     forallb is_word hash = true → forallb is_white_space ws = true →
     firstCommitSync execFile options st = (Normal hash, st) ∧
     firstCommitAsync execFile options st = (Normal hash, st)) ∧
  (∀ error,
     execFile (FirstCommit.firstCommitArgs options) = Failure error →
     firstCommitSync execFile options st = (Throw error, st) ∧
     firstCommitAsync execFile options st = (Throw error, st)).
Proof.
  split.
  - intros hash ws Hout Hhash Hws.
    unfold firstCommitSync, firstCommitAsync, bind, execSync. rewrite Hout.
    unfold ret. by rewrite trim_words_then_white_space.
  - intros error Hfail.
    unfold firstCommitSync, firstCommitAsync, bind, execSync. by rewrite Hfail.
Qed.

End MoreExec.

Lemma diff_of_output_is_parse_witness :
  diffSync (succeeding_command (lit "A foo" ++ [LF] ++ lit "garbage"))
    sample_options []
  = parse (lit "A foo" ++ [LF] ++ lit "garbage") [].
Proof.
  by destruct (diff_of_output_is_parse
                 (succeeding_command (lit "A foo" ++ [LF] ++ lit "garbage"))
                 sample_options (lit "A foo" ++ [LF] ++ lit "garbage") []
                 eq_refl) as [Hsync _].
Defined.

Lemma bad_revision_reference_is_extracted_witness :
  diffSync (failing_command (lit "fatal: bad revision 'it's'" ++ [LF]))
    sample_options []
  = (Throw (git_diff_error (lit "it's")), []).
Proof.
  by destruct (bad_revision_reference_is_extracted
                 (failing_command (lit "fatal: bad revision 'it's'" ++ [LF]))
                 sample_options
                 (set_prop "stderr" (lit "fatal: bad revision 'it's'" ++ [LF])
                    (new_Error (lit "Command failed")))
                 (lit "it's") [LF] [] eq_refl eq_refl eq_refl eq_refl
                 (or_intror (ex_intro _ LF (ex_intro _ [] (conj eq_refl eq_refl)))))
    as [Hsync _].
Defined.

Lemma firstCommit_is_trimmed_output_witness :
  firstCommitSync (succeeding_command (lit "e740b69fbf63" ++ [LF]))
    sample_first_commit_options []
  = (Normal (lit "e740b69fbf63"), []).
Proof.
  destruct (firstCommit_is_trimmed_output
              (succeeding_command (lit "e740b69fbf63" ++ [LF]))
              sample_first_commit_options []) as [Hout _].
  by destruct (Hout (lit "e740b69fbf63") [LF] eq_refl eq_refl eq_refl)
    as [Hsync _].
Defined.
